(** * go-pcp: a shallow embedding of pcp.go and the properties of its
    resolution-and-copy engine.

    The program copies a Go package and the packages it depends on into a
    fresh workspace.  The embedding follows pcp.go function by function:
    the global variables become one [state] record threaded through the
    calls, the operating system and the go/build library become the fields
    of a [World] record, and a call that can panic, call os.Exit or recurse
    without bound returns a [run] value. *)

From stdpp Require Import gmap strings list sets.
From Stdlib Require Import Ascii String NArith ZArith Lia.

Local Open Scope string_scope.
Local Open Scope N_scope.
Local Open Scope list_scope.

(** ** Outcomes of a call *)

(** A Go call returns, panics, ends the process through os.Exit, or is cut
    off by the recursion budget of the embedding. *)
Inductive run (A : Type) : Type :=
| Ret (a : A)
| Panic (msg : string)
| Exit (code : Z)
| Timeout.
Arguments Ret {A} a.
Arguments Panic {A} msg.
Arguments Exit {A} code.
Arguments Timeout {A}.

Definition bind {A B} (m : run A) (k : A -> run B) : run B :=
  match m with
  | Ret a => k a
  | Panic msg => Panic msg
  | Exit c => Exit c
  | Timeout => Timeout
  end.

#[global] Instance run_bind : MBind run := fun A B k m => bind m k.
#[global] Instance run_ret : MRet run := fun A a => Ret a.

(** ** Errors *)

(** The two error types of pcp.go, and every other error value. *)
Inductive error : Type :=
| fmtErr (fmt err : string)
| syntaxErr (fmt err : string)
| otherErr (msg : string).

Definition Formatted (e : error) : string :=
  match e with
  | fmtErr f _ => f
  | syntaxErr f _ => f
  | otherErr m => m
  end.

Definition Error (e : error) : string :=
  match e with
  | fmtErr _ m => m
  | syntaxErr _ m => m
  | otherErr m => m
  end.

(** ** Strings and paths *)

Definition dq : string := String (Ascii.ascii_of_nat 34) EmptyString.
Definition quoted (s : string) : string := dq +:+ s +:+ dq.

(** A cleaned absolute path is the list of its components. *)
Definition Path := list string.

Fixpoint join_with (sep : string) (l : list string) : string :=
  match l with
  | [] => EmptyString
  | [x] => x
  | x :: rest => x +:+ sep +:+ join_with sep rest
  end.

(** The textual form of an absolute path, as handed to functions that take
    a Go string. *)
Definition render (p : Path) : string := "/" +:+ join_with "/" p.

(** filepath.ToSlash on a relative path. *)
Definition ToSlash (rel : Path) : string := join_with "/" rel.

(** strings.Split(s, "/"), with the component being read in [cur]. *)
Fixpoint split_slash_aux (s cur : string) : list string :=
  match s with
  | EmptyString => [cur]
  | String c rest =>
      if Ascii.eqb c "/"%char then cur :: split_slash_aux rest EmptyString
      else split_slash_aux rest (cur +:+ String c EmptyString)
  end.
Definition split_slash (s : string) : list string := split_slash_aux s EmptyString.

(** filepath.Clean on the components appended to an absolute path: empty
    and "." components vanish, ".." removes the component before it. *)
Fixpoint clean_onto (base : Path) (comps : list string) : Path :=
  match comps with
  | [] => base
  | c :: rest =>
      if String.eqb c "" then clean_onto base rest
      else if String.eqb c "." then clean_onto base rest
      else if String.eqb c ".." then clean_onto (removelast base) rest
      else clean_onto (base ++ [c]) rest
  end.

(** filepath.Join(base, elems...) for an absolute [base]. *)
Definition Join (base : Path) (elems : list string) : Path :=
  clean_onto base (List.concat (map split_slash elems)).

(** filepath.Rel(base, target): the components of [target] below [base];
    [None] is Rel's error. Paths here are absolute and clean, so Rel fails
    exactly when [base] is not an ancestor of [target]. *)
Fixpoint Rel (base target : Path) : option Path :=
  match base, target with
  | [], _ => Some target
  | b :: base', t :: target' => if String.eqb b t then Rel base' target' else None
  | _ :: _, [] => None
  end.

(** filepath.IsAbs on Unix. *)
Definition IsAbs (s : string) : bool :=
  match s with
  | String c _ => Ascii.eqb c "/"%char
  | EmptyString => false
  end.

Fixpoint has_prefix (pre s : string) : bool :=
  match pre, s with
  | EmptyString, _ => true
  | String a pre', String b s' => Ascii.eqb a b && has_prefix pre' s'
  | String _ _, EmptyString => false
  end.

(** build.IsLocalImport. *)
Definition IsLocalImport (s : string) : bool :=
  String.eqb s "." || String.eqb s ".." || has_prefix "./" s || has_prefix "../" s.

(** strings.SplitN(s, ":", 2): the text before the first colon and, when
    there is a colon, the text after it. *)
Fixpoint split_colon (s : string) : string * option string :=
  match s with
  | EmptyString => (EmptyString, None)
  | String c rest =>
      if Ascii.eqb c ":"%char then (EmptyString, Some rest)
      else let '(a, b) := split_colon rest in (String c a, b)
  end.

(** ** The file tree *)

(** A file or a directory, with the name of its directory entry and its
    os.FileMode; a directory whose entries cannot be read carries the error
    of the read. *)
#[warnings="-register-all"]
Inductive node : Type :=
| FileNode (name : string) (mode : N)
| DirNode (name : string) (mode : N) (readErr : option string) (entries : list node).

Record FileInfo := { fi_name : string; fi_mode : N; fi_isdir : bool }.

Definition node_name (n : node) : string :=
  match n with FileNode nm _ => nm | DirNode nm _ _ _ => nm end.
Definition node_mode (n : node) : N :=
  match n with FileNode _ m => m | DirNode _ m _ _ => m end.
Definition node_isdir (n : node) : bool :=
  match n with FileNode _ _ => false | DirNode _ _ _ _ => true end.

Definition info_of (n : node) : FileInfo :=
  {| fi_name := node_name n; fi_mode := node_mode n; fi_isdir := node_isdir n |}.

Fixpoint find_entry (nm : string) (l : list node) : option node :=
  match l with
  | [] => None
  | n :: rest => if String.eqb (node_name n) nm then Some n else find_entry nm rest
  end.

(** os.Lstat: the node at a path below the root of the tree. *)
Fixpoint lookup_node (root : node) (p : Path) : option node :=
  match p with
  | [] => Some root
  | c :: rest =>
      match root with
      | FileNode _ _ => None
      | DirNode _ _ _ ents =>
          match find_entry c ents with
          | Some n => lookup_node n rest
          | None => None
          end
      end
  end.

(** ** filepath.Walk *)

(** What a WalkFunc returns: nil or filepath.SkipDir (the two callbacks of
    pcp.go return nothing else). *)
Inductive walkret := WNil | WSkipDir.

Definition WalkFunc (S : Type) : Type :=
  Path -> option FileInfo -> option string -> S -> run (walkret * S).

(** The loop of filepath.walk over the entries of the directory [p], with
    the walk of one entry as [rec]: SkipDir from a directory goes on with
    the next entry, SkipDir from a file ends the loop. *)
Fixpoint walk_entries {S : Type} (rec : node -> Path -> S -> run (walkret * S))
  (p : Path) (l : list node) (s : S) : run (walkret * S) :=
  match l with
  | [] => Ret (WNil, s)
  | c :: rest =>
      '(r, s') ← rec c (p ++ [node_name c]) s;
      match r with
      | WSkipDir =>
          if node_isdir c then walk_entries rec p rest s'
          else Ret (WSkipDir, s')
      | WNil => walk_entries rec p rest s'
      end
  end.

(** filepath.walk, as in the Go releases of the time of the program: the
    callback first, then the entries of a directory in order. SkipDir from
    the callback on a directory skips its entries; a directory that cannot
    be read is handed to the callback a second time with the error. The
    walk is over the tree as it is when the walk starts. *)
Fixpoint walk {S : Type} (fn : WalkFunc S) (n : node) (p : Path) (s : S)
  {struct n} : run (walkret * S) :=
  '(r, s1) ← fn p (Some (info_of n)) None s;
  match r with
  | WSkipDir => if node_isdir n then Ret (WNil, s1) else Ret (WSkipDir, s1)
  | WNil =>
      match n with
      | FileNode _ _ => Ret (WNil, s1)
      | DirNode _ _ (Some e) _ => fn p (Some (info_of n)) (Some e) s1
      | DirNode _ _ None ents => walk_entries (walk fn) p ents s1
      end
  end.

Definition lstat_error (p : Path) : string :=
  "lstat " +:+ render p +:+ ": no such file or directory".

(** filepath.Walk(root, fn) over the tree [fs]; both callers drop the
    result of Walk, so only the callback's state is returned. *)
Definition Walk {S : Type} (fs : node) (fn : WalkFunc S) (root : Path) (s : S) : run S :=
  match lookup_node fs root with
  | None => '(_, s') ← fn root None (Some (lstat_error root)) s; Ret s'
  | Some n => '(_, s') ← walk fn n root s; Ret s'
  end.

(** ** The world outside the program *)

(** build.Package, with the fields pcp.go reads. go/build returns [Dir] as
    a cleaned absolute directory. *)
Record Package := {
  ImportPath : string;
  Name : string;
  Dir : Path;
  Goroot : bool;
  Imports : list string
}.

Definition set_ImportPath (ip : string) (pkg : Package) : Package :=
  {| ImportPath := ip; Name := Name pkg; Dir := Dir pkg;
     Goroot := Goroot pkg; Imports := Imports pkg |}.

(** The operating system, the go/build library and the go command, as far
    as pcp.go calls them. An [option string] result is the text of the
    error of the call, [None] when it succeeds. *)
Record World := {
  fs : node;                                             (* the file tree filepath.Walk reads *)
  buildImport : string -> string -> Package * option string;  (* build.Import(path, srcDir, _) *)
  filepathAbs : string -> Path + string;                 (* filepath.Abs *)
  osStat : string -> option string;                      (* os.Stat *)
  osMkdirAll : Path -> N -> option string;               (* os.MkdirAll *)
  osOpen : Path -> option string;                        (* os.Open *)
  osCreate : Path -> option string;                      (* os.Create *)
  ioCopy : Path -> Path -> option string;                (* io.Copy(dst, src) *)
  osChmod : Path -> N -> option string;                  (* os.Chmod *)
  goGet : string -> string -> option string              (* go get -d -t pkg, under an environment *)
}.

(** What the program does to the world. *)
Inductive event : Type :=
| EvMkdirAll (p : Path) (perm : N) (ok : bool)
| EvCreate (p : Path) (ok : bool)
| EvCopyData (src dst : Path) (ok : bool)
| EvChmod (p : Path) (mode : N) (ok : bool)
| EvGoGet (pkg env : string) (ok : bool).

(** ** The global variables *)

(** The package-level variables of pcp.go, and the effects so far: the
    calls that change the world, and the lines printed. [resolved] is the
    map[string]bool that only ever holds true, a set of import paths. *)
Record state := {
  hidden : bool;
  recursive : bool;
  abs : bool;
  verbose : bool;
  workspace : Path;
  resolved : gset string;
  gopath : string;
  exitCode : Z;
  trace : list event;
  stdout : list string;
  stderr : list string
}.

Definition set_resolved (f : gset string -> gset string) (st : state) : state :=
  {| hidden := hidden st; recursive := recursive st; abs := abs st;
     verbose := verbose st; workspace := workspace st;
     resolved := f (resolved st); gopath := gopath st; exitCode := exitCode st;
     trace := trace st; stdout := stdout st; stderr := stderr st |}.

Definition add_trace (evs : list event) (st : state) : state :=
  {| hidden := hidden st; recursive := recursive st; abs := abs st;
     verbose := verbose st; workspace := workspace st;
     resolved := resolved st; gopath := gopath st; exitCode := exitCode st;
     trace := trace st ++ evs; stdout := stdout st; stderr := stderr st |}.

Definition print (line : string) (st : state) : state :=
  {| hidden := hidden st; recursive := recursive st; abs := abs st;
     verbose := verbose st; workspace := workspace st;
     resolved := resolved st; gopath := gopath st; exitCode := exitCode st;
     trace := trace st; stdout := stdout st ++ [line]; stderr := stderr st |}.

Definition eprint (line : string) (st : state) : state :=
  {| hidden := hidden st; recursive := recursive st; abs := abs st;
     verbose := verbose st; workspace := workspace st;
     resolved := resolved st; gopath := gopath st; exitCode := exitCode st;
     trace := trace st; stdout := stdout st; stderr := stderr st ++ [line] |}.

Definition set_exitCode (c : Z) (st : state) : state :=
  {| hidden := hidden st; recursive := recursive st; abs := abs st;
     verbose := verbose st; workspace := workspace st;
     resolved := resolved st; gopath := gopath st; exitCode := c;
     trace := trace st; stdout := stdout st; stderr := stderr st |}.

Definition verbosely (line : string) (st : state) : state :=
  if verbose st then print line st else st.

Definition path_eqb (p q : Path) : bool := bool_decide (p = q).
Definition nonempty (s : string) : bool := negb (String.eqb s "").
Definition not_nil {A} (o : option A) : bool :=
  match o with Some _ => true | None => false end.

(** ** findPkg *)

Definition import_found (w : World) (path srcDir newImportPath : string)
  : run (option Package * option error) :=
  let '(pkg, err) := buildImport w path srcDir in
  let pkg := if nonempty newImportPath then set_ImportPath newImportPath pkg else pkg in
  match err with
  | Some e =>
      let pkgStr := if nonempty srcDir then srcDir else path in
      Ret (Some pkg,
           Some (fmtErr (quoted pkgStr +:+ " isn't a valid Go package.")
                        ("couldn't find package:" +:+ e)))
  | None => Ret (Some pkg, None)
  end.

(** findPkg returns a nil package when filepath.Abs fails, and indexes the
    first byte of [path] when [path] is not a local import. *)
Definition findPkg (w : World) (path newImportPath : string)
  : run (option Package * option error) :=
  isdir ← (if IsLocalImport path then Ret true
            else match path with
                 | EmptyString => Panic "index out of range"
                 | String c _ => Ret (Ascii.eqb c "/"%char)
                 end);
  if isdir : bool then
    if negb (IsAbs path) then
      match filepathAbs w path with
      | inr e =>
          Ret (None,
               Some (fmtErr ("Couldn't get an absolute path for " +:+ quoted "" +:+ ".") e))
      | inl p => import_found w "." (render p) newImportPath
      end
    else import_found w "." path newImportPath
  else import_found w path "" newImportPath.

(** ** findSubPkgs *)

Record copyPkgArgs := { arg_path : string; arg_newImportPath : string }.

Definition subPkgFunc (w : World) (st : state) (basePath : Path) (baseImportPath : string)
  : WalkFunc (list copyPkgArgs) :=
  fun path info err ret =>
    if path_eqb path basePath then Ret (WNil, ret)
    else match info with
         | None => Panic "nil pointer dereference"
         | Some info =>
             if fi_isdir info then
               if path_eqb path (workspace st) then Ret (WSkipDir, ret)
               else match Rel basePath path with
                    | None => Ret (WNil, ret)
                    | Some rel =>
                        let newImportPath := baseImportPath +:+ "/" +:+ ToSlash rel in
                        '(opkg, e) ← findPkg w (render path) newImportPath;
                        match e with
                        | Some _ => Ret (WNil, ret)
                        | None =>
                            match opkg with
                            | None => Panic "nil pointer dereference"
                            | Some pkg =>
                                Ret (WNil,
                                     ret ++ [{| arg_path := render (Dir pkg);
                                                arg_newImportPath := ImportPath pkg |}])
                            end
                        end
                    end
             else Ret (WNil, ret)
         end.

Definition findSubPkgs (w : World) (st : state) (basePath : Path) (baseImportPath : string)
  : run (list copyPkgArgs) :=
  Walk (fs w) (subPkgFunc w st basePath baseImportPath) basePath [].

(** ** getPackage *)

Definition getPackage (w : World) (pkg env : string) : option error * event :=
  match goGet w pkg env with
  | Some e =>
      (Some (fmtErr ("Error downloading package " +:+ quoted pkg +:+ ": " +:+ e +:+ ".")
                    ("error downloading package:" +:+ e)),
       EvGoGet pkg env false)
  | None => (None, EvGoGet pkg env true)
  end.

(** ** copyFile and copyDir *)

Definition copyFile (w : World) (src dst : Path) : option error * list event :=
  match osOpen w src with
  | Some e =>
      (Some (fmtErr ("Couldn't read file " +:+ quoted (render src) +:+ ": " +:+ e +:+ ".")
                    ("couldn't open file for reading: " +:+ render src +:+ ": " +:+ e)),
       [])
  | None =>
      match osCreate w dst with
      | Some e =>
          (Some (fmtErr ("Couldn't create file " +:+ quoted (render dst) +:+ ": " +:+ e +:+ ".")
                        ("couldn't create file: " +:+ render dst +:+ ": " +:+ e)),
           [EvCreate dst false])
      | None =>
          match ioCopy w dst src with
          | Some e =>
              (Some (fmtErr ("Couldn't copy the contents of " +:+ quoted (render src)
                             +:+ ": " +:+ e +:+ ".")
                            ("couldn't copy file: " +:+ render src +:+ ": " +:+ e)),
               [EvCreate dst true; EvCopyData src dst false])
          | None => (None, [EvCreate dst true; EvCopyData src dst true])
          end
      end
  end.

(** The chmod struct: a path and the mode to give it. *)
Record chmod := { chmod_path : Path; chmod_mode : N }.

(** The variables copyFunc closes over. *)
Record copying := {
  c_errs : list error;
  c_stack : list chmod;
  c_trace : list event
}.

Definition dirPerm : N := 484. (* 0744 *)

Definition copyFunc (w : World) (st : state) (src dst : Path) : WalkFunc copying :=
  fun path info err c =>
    match err with
    | Some e =>
        Ret (WNil,
             {| c_errs := c_errs c ++
                  [fmtErr ("Couldn't traverse " +:+ quoted (render path) +:+ ": " +:+ e +:+ ".")
                          ("error copying file:" +:+ e)];
                c_stack := c_stack c; c_trace := c_trace c |})
    | None =>
        match info with
        | None => Panic "nil pointer dereference"
        | Some info =>
            dot ← (if hidden st then Ret false
                    else match fi_name info with
                         | EmptyString => Panic "index out of range"
                         | String ch _ => Ret (Ascii.eqb ch "."%char)
                         end);
            if dot : bool then
              if fi_isdir info then Ret (WSkipDir, c) else Ret (WNil, c)
            else if path_eqb path (workspace st) then Ret (WSkipDir, c)
            else match Rel src path with
                 | None => Panic "couldn't determine the relative path"
                 | Some rel =>
                     let dstPath := dst ++ rel in
                     if fi_isdir info then
                       match osMkdirAll w dstPath dirPerm with
                       | Some e =>
                           Ret (WNil,
                                {| c_errs := c_errs c ++
                                     [fmtErr ("Couldn't create directory "
                                              +:+ quoted (render dstPath) +:+ ": " +:+ e +:+ ".")
                                             ("couldn't create dir: " +:+ render dstPath
                                              +:+ ": " +:+ e)];
                                   c_stack := c_stack c;
                                   c_trace := c_trace c ++ [EvMkdirAll dstPath dirPerm false] |})
                       | None =>
                           Ret (WNil,
                                {| c_errs := c_errs c;
                                   c_stack := c_stack c ++
                                     [{| chmod_path := dstPath; chmod_mode := fi_mode info |}];
                                   c_trace := c_trace c ++ [EvMkdirAll dstPath dirPerm true] |})
                       end
                     else
                       let '(oe, evs) := copyFile w path dstPath in
                       Ret (WNil,
                            {| c_errs := match oe with
                                         | Some e => c_errs c ++ [e]
                                         | None => c_errs c
                                         end;
                               c_stack := c_stack c ++
                                 [{| chmod_path := dstPath; chmod_mode := fi_mode info |}];
                               c_trace := c_trace c ++ evs |})
                 end
        end
    end.

(** The second loop of copyDir, over the stack from its last entry to its
    first: [todo] is the stack reversed. *)
Fixpoint chmodAll (w : World) (todo : list chmod) (errs : list error) (tr : list event)
  : list error * list event :=
  match todo with
  | [] => (errs, tr)
  | c :: rest =>
      match osChmod w (chmod_path c) (chmod_mode c) with
      | Some e =>
          chmodAll w rest
            (errs ++ [fmtErr ("Couldn't set permissions on " +:+ quoted (render (chmod_path c))
                              +:+ ": " +:+ e +:+ ".")
                             ("couldn't set permissions: " +:+ render (chmod_path c)
                              +:+ ": " +:+ e)])
            (tr ++ [EvChmod (chmod_path c) (chmod_mode c) false])
      | None =>
          chmodAll w rest errs (tr ++ [EvChmod (chmod_path c) (chmod_mode c) true])
      end
  end.

Definition copyDir (w : World) (st : state) (src dst : Path)
  : run (list error * list event) :=
  c ← Walk (fs w) (copyFunc w st src dst) src
        {| c_errs := []; c_stack := []; c_trace := [] |};
  Ret (chmodAll w (rev (c_stack c)) (c_errs c) (c_trace c)).

(** ** copyPkg *)

(** The loop over pkg.Imports: errs = append(errs, copyPkg(dep, "")...). *)
Fixpoint copyDeps (call : string -> string -> state -> run (list error * state))
  (deps : list string) (errs : list error) (st : state) : run (list error * state) :=
  match deps with
  | [] => Ret (errs, st)
  | dep :: rest =>
      '(e, st') ← call dep "" st;
      copyDeps call rest (errs ++ e) st'
  end.

(** The loop over the subpackages found by findSubPkgs. *)
Fixpoint copySubs (call : string -> string -> state -> run (list error * state))
  (importPath : string) (subs : list copyPkgArgs) (errs : list error) (st : state)
  : run (list error * state) :=
  match subs with
  | [] => Ret (errs, st)
  | sub :: rest =>
      let st1 := verbosely (importPath +:+ " has the subpackage "
                            +:+ arg_newImportPath sub +:+ ".") st in
      '(e, st') ← call (arg_path sub) (arg_newImportPath sub) st1;
      copySubs call importPath rest (errs ++ e) st'
  end.

(** copyPkg, with a budget for the depth of its recursion: Go puts no bound
    on it, and [Timeout] stands for a call that has not returned within
    the budget. *)
Fixpoint copyPkg (fuel : nat) (w : World) (path newImportPath : string) (st : state)
  {struct fuel} : run (list error * state) :=
  match fuel with
  | O => Timeout
  | S fuel' =>
      '(opkg, err) ← findPkg w path newImportPath;
      match opkg with
      | None => Panic "nil pointer dereference"
      | Some pkg =>
          if bool_decide (ImportPath pkg ∈ resolved st) then
            Ret ([], if negb (Goroot pkg)
                     then verbosely ("Already copied " +:+ ImportPath pkg +:+ ".") st
                     else st)
          else if not_nil err || String.eqb (Name pkg) "" then
            let st1 := verbosely ("Getting " +:+ ImportPath pkg +:+ ".") st in
            let '(e, ev) := getPackage w (ImportPath pkg) (gopath st1) in
            let st2 := set_resolved (union {[ImportPath pkg]}) (add_trace [ev] st1) in
            match e with
            | Some e => Ret ([e], st2)
            | None => Ret ([], st2)
            end
          else if negb (Goroot pkg) then
            let st1 := verbosely ("Copying " +:+ ImportPath pkg +:+ " from "
                                  +:+ quoted (render (Dir pkg)) +:+ ".") st in
            let dst := Join (workspace st1) ["src"; ImportPath pkg] in
            '(errs, evs) ← copyDir w st1 (Dir pkg) dst;
            let st2 := add_trace evs st1 in
            match err with
            | Some _ => Ret (errs, st2)
            | None =>
                '(errs, st3) ← copyDeps (copyPkg fuel' w) (Imports pkg) errs st2;
                let st4 := set_resolved (union {[ImportPath pkg]}) st3 in
                if recursive st4 then
                  subPkgs ← findSubPkgs w st4 (Dir pkg) (ImportPath pkg);
                  copySubs (copyPkg fuel' w) (ImportPath pkg) subPkgs errs st4
                else Ret (errs, st4)
            end
          else Ret ([], st)
      end
  end.

(** ** createWorkspace, parseImport, checkError and main *)

Definition createWorkspace (w : World) (path : string) (st : state)
  : Path * option error * state :=
  if String.eqb path "" then
    ([], Some (syntaxErr "You must provide a workspace path." "path is empty"), st)
  else
    match filepathAbs w path with
    | inr e =>
        ([], Some (fmtErr ("Couldn't determine an absolute path for " +:+ quoted path +:+ ".") e),
         st)
    | inl absPath =>
        match osMkdirAll w absPath dirPerm with
        | Some e =>
            (absPath,
             Some (fmtErr ("Couldn't create a directory at " +:+ quoted (render absPath) +:+ ".") e),
             add_trace [EvMkdirAll absPath dirPerm false] st)
        | None => (absPath, None, add_trace [EvMkdirAll absPath dirPerm true] st)
        end
    end.

Definition parseImport (w : World) (s : string) : string * string * option error :=
  let '(first, second) := split_colon s in
  if String.eqb first "" then
    ("", "", Some (syntaxErr (quoted s +:+ " isn't a valid import path.") "invalid import path"))
  else
    match second with
    | Some d =>
        if nonempty d then
          match osStat w d with
          | Some e => (first, "", Some (fmtErr (quoted d +:+ " isn't valid directory.") e))
          | None =>
              match filepathAbs w d with
              | inr e =>
                  (first, "",
                   Some (fmtErr ("Couldn't determine an absolute path for " +:+ quoted d +:+ ".") e))
              | inl p => (first, render p, None)
              end
          end
        else (first, "", None)
    | None => (first, "", None)
    end.

Definition usage : string :=
  "Usage: go-pcp [options] workspacePath importPath[:directory]...".

(** checkError(fatal, errs...): the first error that is not nil decides. *)
Fixpoint checkError (fatal : bool) (errs : list (option error)) (st : state)
  : run (bool * state) :=
  match errs with
  | [] => Ret (false, st)
  | None :: rest => checkError fatal rest st
  | Some (syntaxErr f m) :: _ =>
      let st1 := eprint usage (eprint f st) in
      if fatal then Exit 2 else Ret (true, st1)
  | Some (fmtErr f m) :: _ =>
      let st1 := eprint f st in
      if fatal then Exit 1 else Ret (true, set_exitCode 3 st1)
  | Some (otherErr m) :: _ =>
      let st1 := eprint m st in
      if fatal then Exit 1 else Ret (true, set_exitCode 3 st1)
  end.

(** The loop of main over flag.Args()[1:]. *)
Fixpoint mainLoop (fuel : nat) (w : World) (args : list string) (st : state) : run state :=
  match args with
  | [] => Ret st
  | a :: rest =>
      let '(importPath, dir, err) := parseImport w a in
      '(failed, st1) ← checkError false [err] st;
      if failed : bool then mainLoop fuel w rest st1
      else
        '(errs, st2) ← (if nonempty dir then copyPkg fuel w dir importPath st1
                         else copyPkg fuel w importPath "" st1);
        '(_, st3) ← checkError false (map Some errs) st2;
        mainLoop fuel w rest st3
  end.

(** The command-line flags after flag.Parse. *)
Record flags := {
  f_recursive : bool;
  f_hidden : bool;
  f_abs : bool;
  f_verbose : bool
}.

Definition defaultFlags : flags :=
  {| f_recursive := true; f_hidden := false; f_abs := false; f_verbose := false |}.

(** The package-level variables when main starts. *)
Definition initial (fl : flags) : state :=
  {| hidden := f_hidden fl; recursive := f_recursive fl; abs := f_abs fl;
     verbose := f_verbose fl; workspace := []; resolved := ∅; gopath := "";
     exitCode := 0%Z; trace := []; stdout := []; stderr := [] |}.

Definition enter_workspace (absPath : Path) (st : state) : state :=
  {| hidden := hidden st; recursive := recursive st; abs := abs st;
     verbose := verbose st; workspace := absPath;
     resolved := resolved st; gopath := "GOPATH=" +:+ render absPath;
     exitCode := exitCode st; trace := trace st; stdout := stdout st;
     stderr := stderr st |}.

(** main, given the parsed flags and flag.Args(). *)
Definition main (fuel : nat) (w : World) (fl : flags) (args : list string) : run state :=
  let st0 := initial fl in
  match args with
  | wsArg :: ((_ :: _) as imports) =>
      let '(absPath, err, st1) := createWorkspace w wsArg st0 in
      '(_, st2) ← checkError true [err] st1;
      let st3 := enter_workspace absPath st2 in
      let st4 := if abs st3 then print (render (workspace st3)) st3 else st3 in
      st5 ← mainLoop fuel w imports st4;
      if bool_decide (exitCode st5 ≠ 0%Z) then Exit (exitCode st5) else Ret st5
  | _ => Exit 2
  end.

(** The exit status of the process: 0 when main returns, the argument of
    os.Exit, 2 after a panic. *)
Definition exit_status (r : run state) : option Z :=
  match r with
  | Ret _ => Some 0%Z
  | Exit c => Some c
  | Panic _ => Some 2%Z
  | Timeout => None
  end.

(** * Example worlds *)

Module Examples.

Definition ModeDir : N := 2147483648. (* 1 << 31 *)

(** /go/src holds two packages, A with a read-only file, a hidden
    directory, a subpackage and a workspace nested inside it, and B. *)
Definition tree : node :=
  DirNode "/" (ModeDir + 493) None
    [ DirNode "go" (ModeDir + 493) None
        [ DirNode "src" (ModeDir + 493) None
            [ DirNode "A" (ModeDir + 493) None
                [ DirNode ".git" (ModeDir + 493) None [ FileNode "config" 420 ];
                  FileNode "a.go" 420;
                  FileNode "ro.txt" 292;
                  DirNode "sub" (ModeDir + 448) None [ FileNode "s.go" 384 ];
                  DirNode "ws" (ModeDir + 484) None
                    [ DirNode "src" (ModeDir + 484) None [ FileNode "old.go" 420 ] ] ];
              DirNode "B" (ModeDir + 493) None [ FileNode "b.go" 420 ] ] ];
      DirNode "home" (ModeDir + 493) None
        [ DirNode "u" (ModeDir + 493) None
            [ DirNode "fmt" (ModeDir + 493) None [ FileNode "f.go" 420 ] ] ] ].

Definition dirA : Path := ["go"; "src"; "A"].
Definition dirB : Path := ["go"; "src"; "B"].
Definition ws : Path := ["go"; "src"; "A"; "ws"].

Definition notFound (path : string) : Package * option string :=
  ({| ImportPath := path; Name := ""; Dir := []; Goroot := false; Imports := [] |},
   Some "cannot find package").

(** go/build over that tree; [importsOfB] is what B imports. *)
Definition lookup (importsOfB : list string) (path srcDir : string)
  : Package * option string :=
  if String.eqb path "." then
    if String.eqb srcDir "/go/src/A/sub" then
      ({| ImportPath := "A/sub"; Name := "sub"; Dir := dirA ++ ["sub"];
          Goroot := false; Imports := ["A"] |}, None)
    else if String.eqb srcDir "/home/u/fmt" then
      ({| ImportPath := "."; Name := "fmt"; Dir := ["home"; "u"; "fmt"];
          Goroot := false; Imports := [] |}, None)
    else notFound path
  else if String.eqb path "A" then
    ({| ImportPath := "A"; Name := "a"; Dir := dirA;
        Goroot := false; Imports := ["B"; "fmt"] |}, None)
  else if String.eqb path "B" then
    ({| ImportPath := "B"; Name := "b"; Dir := dirB;
        Goroot := false; Imports := importsOfB |}, None)
  else if String.eqb path "fmt" then
    ({| ImportPath := "fmt"; Name := "fmt"; Dir := ["usr"; "lib"; "go"; "src"; "fmt"];
        Goroot := true; Imports := [] |}, None)
  else notFound path.

Definition world (importsOfB : list string) (unreadable : list Path) : World :=
  {| fs := tree;
     buildImport := lookup importsOfB;
     filepathAbs := fun s =>
       if String.eqb s "./gone" then inr "getwd: no such file or directory"
       else if IsAbs s then inl (clean_onto [] (split_slash s))
       else inl (clean_onto ["home"; "u"] (split_slash s));
     osStat := fun _ => None;
     osMkdirAll := fun _ _ => None;
     osOpen := fun p =>
       if bool_decide (p ∈ unreadable) then Some "permission denied" else None;
     osCreate := fun _ => None;
     ioCopy := fun _ _ => None;
     osChmod := fun _ _ => None;
     goGet := fun pkg _ => if String.eqb pkg "E" then Some "exit status 1" else None |}.

(** B imports only the standard library. *)
Definition acyclic : World := world ["fmt"] [].
(** B imports A, which imports B. *)
Definition cyclic : World := world ["A"] [].
(** As [acyclic], but a.go of A cannot be opened. *)
Definition faulty : World := world ["fmt"] [dirA ++ ["a.go"]].

Definition pkgA : Package :=
  {| ImportPath := "A"; Name := "a"; Dir := dirA; Goroot := false;
     Imports := ["B"; "fmt"] |}.

(** The variables once main has created the workspace /go/src/A/ws. *)
Definition started : state := enter_workspace ws (initial defaultFlags).

Definition pkgB : Package :=
  {| ImportPath := "B"; Name := "b"; Dir := dirB; Goroot := false; Imports := ["fmt"] |}.

Definition copyOfB : list event :=
  [ EvMkdirAll (ws ++ ["src"; "B"]) 484 true;
    EvCreate (ws ++ ["src"; "B"; "b.go"]) true;
    EvCopyData (dirB ++ ["b.go"]) (ws ++ ["src"; "B"; "b.go"]) true;
    EvChmod (ws ++ ["src"; "B"; "b.go"]) 420 true;
    EvChmod (ws ++ ["src"; "B"]) (ModeDir + 493) true ].

(** The variables after copyPkg("B", "") in [acyclic]. *)
Definition afterB : state :=
  set_resolved (union {["B"]}) (add_trace copyOfB started).

(** The events of copyDir from /go/src/A to src/A in the workspace. *)
Definition dstA : Path := ws ++ ["src"; "A"].
Definition copyOfA : list event :=
  [ EvMkdirAll dstA 484 true;
    EvCreate (dstA ++ ["a.go"]) true;
    EvCopyData (dirA ++ ["a.go"]) (dstA ++ ["a.go"]) true;
    EvCreate (dstA ++ ["ro.txt"]) true;
    EvCopyData (dirA ++ ["ro.txt"]) (dstA ++ ["ro.txt"]) true;
    EvMkdirAll (dstA ++ ["sub"]) 484 true;
    EvCreate (dstA ++ ["sub"; "s.go"]) true;
    EvCopyData (dirA ++ ["sub"; "s.go"]) (dstA ++ ["sub"; "s.go"]) true;
    EvChmod (dstA ++ ["sub"; "s.go"]) 384 true;
    EvChmod (dstA ++ ["sub"]) (ModeDir + 448) true;
    EvChmod (dstA ++ ["ro.txt"]) 292 true;
    EvChmod (dstA ++ ["a.go"]) 420 true;
    EvChmod dstA (ModeDir + 493) true ].

(** The calls of copyPkg that start from A in [acyclic], the packages
    they copy, and a rank that goes down along the imports: the subpackage
    A/sub imports A, which imports B. *)
Definition calls : list (string * string) :=
  [("A", ""); ("B", ""); ("fmt", ""); ("/go/src/A/sub", "A/sub")].
Definition reach (p n : string) : Prop := (p, n) ∈ calls.
Definition universe : gset string := {["A"; "B"; "A/sub"]}.
Definition rank (p n : string) : nat :=
  if String.eqb p "/go/src/A/sub" then 3%nat
  else if String.eqb p "A" then 2%nat
  else if String.eqb p "B" then 1%nat
  else 0%nat.

(** A tree in which the package x/y imports x, the directory above it,
    so that x/y is also a subpackage of the package it imports. *)
Definition treeXY : node :=
  DirNode "/" (ModeDir + 493) None
    [ DirNode "go" (ModeDir + 493) None
        [ DirNode "src" (ModeDir + 493) None
            [ DirNode "x" (ModeDir + 493) None
                [ FileNode "x.go" 420;
                  DirNode "y" (ModeDir + 493) None [ FileNode "y.go" 420 ] ] ] ] ].

Definition pkgXY : Package :=
  {| ImportPath := "x/y"; Name := "y"; Dir := ["go"; "src"; "x"; "y"];
     Goroot := false; Imports := ["x"] |}.

Definition lookupXY (path srcDir : string) : Package * option string :=
  if String.eqb path "x" then
    ({| ImportPath := "x"; Name := "x"; Dir := ["go"; "src"; "x"];
        Goroot := false; Imports := [] |}, None)
  else if String.eqb path "x/y" then (pkgXY, None)
  else if String.eqb path "." && String.eqb srcDir "/go/src/x/y" then (pkgXY, None)
  else notFound path.

Definition worldXY : World :=
  {| fs := treeXY;
     buildImport := lookupXY;
     filepathAbs := fun s => inl (clean_onto [] (split_slash s));
     osStat := fun _ => None;
     osMkdirAll := fun _ _ => None;
     osOpen := fun _ => None;
     osCreate := fun _ => None;
     ioCopy := fun _ _ => None;
     osChmod := fun _ _ => None;
     goGet := fun _ _ => None |}.

(** The variables of a run with -verbose in the workspace /ws. *)
Definition startedXY : state :=
  enter_workspace ["ws"]
    (initial {| f_recursive := true; f_hidden := false; f_abs := false;
                f_verbose := true |}).

End Examples.

(** * Vocabulary of the properties *)

(** What a call may do to the global variables: add to [resolved] and to
    the effects, and leave the flags and the workspace alone. *)
Record extends (st st' : state) : Prop := {
  ext_resolved : resolved st ⊆ resolved st';
  ext_trace : trace st `prefix_of` trace st';
  ext_hidden : hidden st' = hidden st;
  ext_recursive : recursive st' = recursive st;
  ext_verbose : verbose st' = verbose st;
  ext_workspace : workspace st' = workspace st;
  ext_gopath : gopath st' = gopath st;
  ext_exitCode : exitCode st' = exitCode st
}.

Definition extending (call : string -> string -> state -> run (list error * state)) : Prop :=
  forall p n st e st', call p n st = Ret (e, st') -> extends st st'.

Definition mark (ip : string) (st : state) : state := set_resolved (union {[ip]}) st.

(** The package was found and has a name: neither an error nor an empty
    package name sends copyPkg to go get. *)
Definition usable (pkg : Package) (err : option error) : Prop :=
  err = None /\ Name pkg <> "".

(** The second call is idle: of two calls whose locations
    resolve to one import path, the second returns no error and does
    nothing to the world. *)
Definition second_call_idle (w : World) (fuel : nat)
  (path newImportPath path' newImportPath' : string) (st : state) : Prop :=
  forall pkg err pkg' err' errs st1,
    findPkg w path newImportPath = Ret (Some pkg, err) ->
    findPkg w path' newImportPath' = Ret (Some pkg', err') ->
    ImportPath pkg' = ImportPath pkg ->
    copyPkg fuel w path newImportPath st = Ret (errs, st1) ->
    exists st2, copyPkg fuel w path' newImportPath' st1 = Ret ([], st2) /\
                trace st2 = trace st1.

(** The test by which findPkg takes [path] for a directory. *)
Definition directory_style (path : string) : bool := IsLocalImport path || IsAbs path.

(** go/build gives a package looked up by import path that import path. *)
Definition keeps_import_path (w : World) : Prop :=
  forall path, directory_style path = false ->
    ImportPath (fst (buildImport w path "")) = path.

(** Calls made one after the other, each from the state the one before
    left, with the errors of each call kept apart. *)
Fixpoint call_each (call : string -> string -> state -> run (list error * state))
  (args : list (string * string)) (st : state) : run (list (list error) * state) :=
  match args with
  | [] => Ret ([], st)
  | (p, n) :: rest =>
      '(e, st1) ← call p n st;
      '(es, st2) ← call_each call rest st1;
      Ret (e :: es, st2)
  end.

(** The call the loop over the subpackages makes for one of them. *)
Definition sub_call (call : string -> string -> state -> run (list error * state))
  (importPath : string) : string -> string -> state -> run (list error * state) :=
  fun p n st =>
    call p n (verbosely (importPath +:+ " has the subpackage " +:+ n +:+ ".") st).

(** What copyPkg does in the branch that copies, said with [call_each]. *)
Definition copy_branch (fuel : nat) (w : World) (st : state) (pkg : Package)
  : run (list error * state) :=
  let st1 := verbosely ("Copying " +:+ ImportPath pkg +:+ " from "
                        +:+ quoted (render (Dir pkg)) +:+ ".") st in
  '(copyErrs, evs) ← copyDir w st1 (Dir pkg) (Join (workspace st) ["src"; ImportPath pkg]);
  '(depErrs, st3) ← call_each (copyPkg fuel w)
                      (map (fun d => (d, "")) (Imports pkg)) (add_trace evs st1);
  let st4 := mark (ImportPath pkg) st3 in
  if recursive st4 then
    subPkgs ← findSubPkgs w st4 (Dir pkg) (ImportPath pkg);
    '(subErrs, st5) ← call_each (sub_call (copyPkg fuel w) (ImportPath pkg))
                        (map (fun s => (arg_path s, arg_newImportPath s)) subPkgs) st4;
    Ret (copyErrs ++ List.concat depErrs ++ List.concat subErrs, st5)
  else Ret (copyErrs ++ List.concat depErrs, st4).

(** The read, write and execute bits of a mode, from bit [shift] up. *)
Definition rwx (m shift : N) : bool * bool * bool :=
  (N.testbit m (shift + 2), N.testbit m (shift + 1), N.testbit m shift).
Definition owner_bits (m : N) := rwx m 6.
Definition group_bits (m : N) := rwx m 3.
Definition other_bits (m : N) := rwx m 0.

(** Every os.MkdirAll among the events asks for these permission bits. *)
Definition mkdirs_as (o g t : bool * bool * bool) (evs : list event) : Prop :=
  forall p m ok, EvMkdirAll p m ok ∈ evs ->
    owner_bits m = o /\ group_bits m = g /\ other_bits m = t.

(** The event of the chmod of one stack entry. *)
Definition chmod_event (w : World) (c : chmod) : event :=
  EvChmod (chmod_path c) (chmod_mode c)
    (bool_decide (osChmod w (chmod_path c) (chmod_mode c) = None)).

Definition is_chmod (ev : event) : bool :=
  match ev with EvChmod _ _ _ => true | _ => false end.

(** [p] lies below [d], and is not [d] itself. *)
Definition inside (d p : Path) : Prop := exists rel, rel <> [] /\ p = d ++ rel.

(** A callback that also notes every path it is called with. *)
Definition logged {S : Type} (fn : WalkFunc S) : WalkFunc (S * list Path) :=
  fun p i e sl =>
    '(r, s') ← fn p i e (fst sl);
    Ret (r, (s', snd sl ++ [p])).

(** The paths filepath.Walk calls [fn] with, in order. *)
Definition visits {S : Type} (fs : node) (fn : WalkFunc S) (root : Path) (s : S)
  : option (list Path) :=
  match Walk fs (logged fn) root (s, []) with
  | Ret (_, l) => Some l
  | _ => None
  end.

(** The result of a walk without the notes of [logged]. *)
Definition forget {S R : Type} (m : run (R * (S * list Path))) : run (R * S) :=
  '(r, sl) ← m; Ret (r, fst sl).

(** The path an event writes to. *)
Definition written (ev : event) : option Path :=
  match ev with
  | EvMkdirAll p _ _ => Some p
  | EvCreate p _ => Some p
  | EvCopyData _ dst _ => Some dst
  | EvChmod p _ _ => Some p
  | EvGoGet _ _ _ => None
  end.

Definition copying0 : copying := {| c_errs := []; c_stack := []; c_trace := [] |}.

(** No directory of the tree holds two entries of one name. *)
Fixpoint distinct_names (n : node) : bool :=
  match n with
  | FileNode _ _ => true
  | DirNode _ _ _ ents =>
      bool_decide (NoDup (map node_name ents)) && forallb distinct_names ents
  end.

(** The paths a list of events creates, in order: the directories of a
    successful os.MkdirAll and the files handed to os.Create. *)
Definition created (evs : list event) : list Path :=
  omap (fun ev => match ev with
                  | EvMkdirAll p _ true => Some p
                  | EvCreate p _ => Some p
                  | _ => None
                  end) evs.

(** os.MkdirAll creates the ancestors that are missing. *)
Fixpoint mkdir_all (base rest : Path) (perm : N) (m : gmap Path N) : gmap Path N :=
  match rest with
  | [] => m
  | c :: rest' =>
      let p := base ++ [c] in
      mkdir_all p rest' perm (match m !! p with Some _ => m | None => <[p := perm]> m end)
  end.

Definition permBits (mode : N) : N := N.land mode 511. (* FileMode.Perm: mode & 0777 *)

(** The permission bits of the files and directories of the destination,
    after an event: os.MkdirAll and os.Create give a new entry the mode
    asked for (0666 for a file) and leave an entry that exists as it is,
    os.Chmod sets the bits. *)
Definition apply_event (m : gmap Path N) (ev : event) : gmap Path N :=
  match ev with
  | EvMkdirAll p perm true => mkdir_all [] p perm m
  | EvCreate p true => match m !! p with Some _ => m | None => <[p := 438]> m end
  | EvChmod p mode true => <[p := permBits mode]> m
  | _ => m
  end.

(** The call returns or panics within some budget. *)
Definition terminates (w : World) (path newImportPath : string) (st : state) : Prop :=
  exists fuel, copyPkg fuel w path newImportPath st <> Timeout.

(** The call finds a package that copyPkg copies: found, with a name,
    outside GOROOT. *)
Definition copies (w : World) (path newImportPath : string) (pkg : Package) : Prop :=
  findPkg w path newImportPath = Ret (Some pkg, None) /\
  Name pkg <> "" /\ Goroot pkg = false.

(** A finite graph of packages without a cycle among the imports, seen
    from the calls of copyPkg: [reach] holds of the calls that can be made,
    the import paths of the packages they copy lie in the finite set
    [universe], and [rank], bounded by [bound], goes down from a call to
    the calls for the imports of its package. *)
Record acyclic_graph (w : World) (wsp : Path) (reach : string -> string -> Prop)
  (universe : gset string) (rank : string -> string -> nat) (bound : nat) : Prop := {
  graph_imports : forall p n pkg d,
    reach p n -> copies w p n pkg -> d ∈ Imports pkg ->
    reach d "" /\ (rank d "" < rank p n)%nat;
  graph_subpackages : forall p n pkg st subs s,
    reach p n -> copies w p n pkg -> workspace st = wsp ->
    findSubPkgs w st (Dir pkg) (ImportPath pkg) = Ret subs -> s ∈ subs ->
    reach (arg_path s) (arg_newImportPath s);
  graph_finite : forall p n pkg,
    reach p n -> copies w p n pkg -> ImportPath pkg ∈ universe;
  graph_bound : forall p n, reach p n -> (rank p n <= bound)%nat
}.

(** The budget that is enough for a call: the packages of the universe
    not yet resolved, each worth a full descent along the imports, and the
    rank of the call. *)
Definition budget (universe : gset string) (rank : string -> string -> nat) (bound : nat)
  (path newImportPath : string) (st : state) : nat :=
  (size (universe ∖ resolved st) * S bound + rank path newImportPath)%nat.

(** The entry copyFunc pushes for the file or directory at [rel] below the
    source. *)
Definition pushed (dst rel : Path) (info : FileInfo) : chmod :=
  {| chmod_path := dst ++ rel; chmod_mode := fi_mode info |}.

(** The entries a walk pushes are those of distinct files and directories
    of the tree it walks, each with the mode of its source. *)
Definition stack_of (n : node) (pre : Path) (new : list chmod) : Prop :=
  NoDup (map chmod_path new) /\
  forall x, x ∈ new -> exists rel n',
    chmod_path x = pre ++ rel /\ lookup_node n rel = Some n' /\ chmod_mode x = node_mode n'.

(** The variables of a run in the workspace of the examples in which
    neither A nor B is resolved. *)
Definition unresolved_AB (st : state) : Prop :=
  hidden st = false /\ workspace st = Examples.ws /\
  ("A" ∉ resolved st) /\ ("B" ∉ resolved st).

(** The path starts with a dot or a slash. *)
Definition starts_with_dot_or_slash (path : string) : bool :=
  match path with
  | String c _ => Ascii.eqb c "."%char || Ascii.eqb c "/"%char
  | EmptyString => false
  end.

(** The error is a syntaxErr, a fmtErr. *)
Definition is_syntaxErr (e : error) : bool :=
  match e with syntaxErr _ _ => true | _ => false end.
Definition is_fmtErr (e : error) : bool :=
  match e with fmtErr _ _ => true | _ => false end.

(** The string holds a colon. *)
Fixpoint has_colon (s : string) : bool :=
  match s with
  | EmptyString => false
  | String c rest => Ascii.eqb c ":"%char || has_colon rest
  end.

(** The first error of the list that is not nil. *)
Fixpoint first_error (errs : list (option error)) : option error :=
  match errs with
  | [] => None
  | Some e :: _ => Some e
  | None :: rest => first_error rest
  end.

(** What checkError prints for an error: the formatted message of a
    syntaxErr or fmtErr, the text of any other error. *)
Definition reported (e : error) : string :=
  match e with
  | otherErr m => m
  | _ => Formatted e
  end.

(** Every file and directory of the tree has an os.FileInfo that [good]
    accepts. *)
Fixpoint every_info (good : FileInfo -> bool) (n : node) : bool :=
  good (info_of n) &&
  match n with
  | FileNode _ _ => true
  | DirNode _ _ _ ents => forallb (every_info good) ents
  end.

(** No file or directory of the tree has the empty name. *)
Definition names_nonempty (n : node) : bool :=
  every_info (fun i => nonempty (fi_name i)) n.

(** The name starts with a dot: a hidden file or directory. *)
Definition dotted (name : string) : bool :=
  match name with
  | String c _ => Ascii.eqb c "."%char
  | EmptyString => false
  end.

(** [q] is a path that the copy has written to, or has pushed on the stack
    for the chmod to come. *)
Definition target (c : copying) (q : Path) : Prop :=
  (exists ev, ev ∈ c_trace c /\ written ev = Some q) \/
  (exists x, x ∈ c_stack c /\ chmod_path x = q).

(** The operation of the event succeeded. *)
Definition event_ok (ev : event) : bool :=
  match ev with
  | EvMkdirAll _ _ ok => ok
  | EvCreate _ ok => ok
  | EvCopyData _ _ ok => ok
  | EvChmod _ _ ok => ok
  | EvGoGet _ _ ok => ok
  end.

(** The number of operations among the events that failed. *)
Definition failures (evs : list event) : nat :=
  List.length (filter (fun ev => event_ok ev = false) evs).

Definition is_go_get (ev : event) : bool :=
  match ev with EvGoGet _ _ _ => true | _ => false end.

(** The errors account for the events: every error is a fmtErr, no more
    operations failed than there are errors, and no event is a go get. *)
Definition accounted (errs : list error) (evs : list event) : Prop :=
  Forall (fun e => is_fmtErr e = true) errs /\
  (failures evs <= List.length errs)%nat /\
  Forall (fun ev => is_go_get ev = false) evs.

(** What a call has added to the trace is accounted for by its errors. *)
Definition reports (st : state) (errs : list error) (st' : state) : Prop :=
  Forall (fun e => is_fmtErr e = true) errs /\
  exists evs, trace st' = trace st ++ evs /\ (failures evs <= List.length errs)%nat.


(** Every go get of a call runs under the GOPATH of the state, for a
    package that was not resolved before the call and is afterwards. *)
Definition fetches (st : state) (errs : list error) (st' : state) : Prop :=
  resolved st ⊆ resolved st' /\ gopath st' = gopath st /\
  exists evs, trace st' = trace st ++ evs /\
    forall pkg env ok, EvGoGet pkg env ok ∈ evs ->
      env = gopath st /\ pkg ∈ resolved st' /\ pkg ∉ resolved st.

(** What the loop of main does to the variables: it leaves GOPATH and the
    workspace alone, runs go get only under GOPATH, and either sets the exit
    code to 3 or keeps it, in which case no operation has failed. *)
Definition looped (st st' : state) : Prop :=
  gopath st' = gopath st /\ workspace st' = workspace st /\
  exists evs, trace st' = trace st ++ evs /\
    (exitCode st' = 3%Z \/ (exitCode st' = exitCode st /\ failures evs = 0%nat)) /\
    forall pkg env ok, EvGoGet pkg env ok ∈ evs -> env = gopath st.

(** * Properties *)

Create HintDb pcp.

(** ** The outcome monad *)

Lemma bind_Ret_inv {A B} (m : run A) (k : A -> run B) (b : B) :
  m ≫= k = Ret b -> exists a, m = Ret a /\ k a = Ret b.
Proof.
  unfold mbind, run_bind, bind. destruct m; intros H; try discriminate. eauto.
Qed.

Lemma bind_Ret_l {A B} (a : A) (k : A -> run B) : Ret a ≫= k = k a.
Proof. reflexivity. Qed.

Lemma bind_Timeout_l {A B} (k : A -> run B) : Timeout ≫= k = Timeout.
Proof. reflexivity. Qed.

Lemma bind_Timeout_inv {A B} (m : run A) (k : A -> run B) :
  m ≫= k = Timeout -> m = Timeout \/ exists a, m = Ret a /\ k a = Timeout.
Proof.
  unfold mbind, run_bind, bind. destruct m; intros H; try discriminate; eauto.
Qed.

Ltac run_inv H :=
  let a := fresh "a" in
  let Hm := fresh "Hm" in
  apply bind_Ret_inv in H as (a & Hm & H).

(** ** One state extends another *)

Lemma extends_refl st : extends st st.
Proof. split; auto. Qed.

Lemma extends_trans st1 st2 st3 : extends st1 st2 -> extends st2 st3 -> extends st1 st3.
Proof.
  intros [] []. split; try congruence.
  - set_solver.
  - etrans; eauto.
Qed.

Lemma extends_verbosely line st : extends st (verbosely line st).
Proof. unfold verbosely. destruct (verbose st); split; simpl; auto. Qed.

Lemma extends_add_trace evs st : extends st (add_trace evs st).
Proof. split; simpl; auto. by apply prefix_app_r. Qed.

Lemma extends_set_resolved x st : extends st (set_resolved (union {[x]}) st).
Proof. split; simpl; auto. set_solver. Qed.

#[local] Hint Resolve extends_refl extends_verbosely extends_add_trace
  extends_set_resolved : pcp.

Lemma copyDeps_extends call deps errs st e st' :
  extending call -> copyDeps call deps errs st = Ret (e, st') -> extends st st'.
Proof.
  intros Hc. revert errs st. induction deps as [|d deps IH]; simpl; intros errs st H.
  - inversion H; subst. apply extends_refl.
  - run_inv H. destruct a as [e1 st1].
    eapply extends_trans; [eapply Hc; eauto | eapply IH; eauto].
Qed.

Lemma copySubs_extends call ip subs errs st e st' :
  extending call -> copySubs call ip subs errs st = Ret (e, st') -> extends st st'.
Proof.
  intros Hc. revert errs st. induction subs as [|s subs IH]; simpl; intros errs st H.
  - inversion H; subst. apply extends_refl.
  - run_inv H. destruct a as [e1 st1].
    eapply extends_trans; [apply extends_verbosely|].
    eapply extends_trans; [eapply Hc; eauto | eapply IH; eauto].
Qed.

Lemma copyPkg_unfold fuel w path newImportPath st :
  copyPkg (S fuel) w path newImportPath st =
  '(opkg, err) ← findPkg w path newImportPath;
  match opkg with
  | None => Panic "nil pointer dereference"
  | Some pkg =>
      if bool_decide (ImportPath pkg ∈ resolved st) then
        Ret ([], if negb (Goroot pkg)
                 then verbosely ("Already copied " +:+ ImportPath pkg +:+ ".") st
                 else st)
      else if not_nil err || String.eqb (Name pkg) "" then
        let st1 := verbosely ("Getting " +:+ ImportPath pkg +:+ ".") st in
        let '(e, ev) := getPackage w (ImportPath pkg) (gopath st1) in
        let st2 := set_resolved (union {[ImportPath pkg]}) (add_trace [ev] st1) in
        match e with
        | Some e => Ret ([e], st2)
        | None => Ret ([], st2)
        end
      else if negb (Goroot pkg) then
        let st1 := verbosely ("Copying " +:+ ImportPath pkg +:+ " from "
                              +:+ quoted (render (Dir pkg)) +:+ ".") st in
        let dst := Join (workspace st1) ["src"; ImportPath pkg] in
        '(errs, evs) ← copyDir w st1 (Dir pkg) dst;
        let st2 := add_trace evs st1 in
        match err with
        | Some _ => Ret (errs, st2)
        | None =>
            '(errs, st3) ← copyDeps (copyPkg fuel w) (Imports pkg) errs st2;
            let st4 := set_resolved (union {[ImportPath pkg]}) st3 in
            if recursive st4 then
              subPkgs ← findSubPkgs w st4 (Dir pkg) (ImportPath pkg);
              copySubs (copyPkg fuel w) (ImportPath pkg) subPkgs errs st4
            else Ret (errs, st4)
        end
      else Ret ([], st)
  end.
Proof. reflexivity. Qed.

Lemma copyPkg_extends fuel w : extending (copyPkg fuel w).
Proof.
  induction fuel as [|fuel IH]; intros p n st e st' H; [discriminate|].
  rewrite copyPkg_unfold in H. run_inv H. destruct a as [[pkg|] err]; [|discriminate].
  destruct (bool_decide _).
  { inversion H; subst. destruct (negb _); auto with pcp. }
  destruct (_ || _).
  { cbv zeta in H. destruct (getPackage _ _ _) as [oe ev].
    assert (extends st (set_resolved (union {[ImportPath pkg]})
              (add_trace [ev] (verbosely ("Getting " +:+ ImportPath pkg +:+ ".") st)))) as Hx.
    { eapply extends_trans; [apply extends_verbosely|].
      eapply extends_trans; [apply extends_add_trace|]. apply extends_set_resolved. }
    destruct oe; inversion H; subst; exact Hx. }
  destruct (negb _); [|inversion H; subst; apply extends_refl].
  cbv zeta in H. run_inv H. destruct a as [errs evs].
  eapply extends_trans; [apply extends_verbosely|].
  eapply extends_trans; [apply (extends_add_trace evs)|].
  destruct err; [inversion H; subst; apply extends_refl|].
  run_inv H. destruct a as [errs' st3].
  eapply extends_trans; [eapply copyDeps_extends; eauto|].
  eapply extends_trans; [apply (extends_set_resolved (ImportPath pkg))|].
  destruct (recursive _).
  - run_inv H. eapply copySubs_extends; eauto.
  - inversion H; subst. apply extends_refl.
Qed.

(** ** The branches of copyPkg *)

Lemma usable_test pkg err :
  usable pkg err -> not_nil err || String.eqb (Name pkg) "" = false.
Proof.
  intros [-> Hn]. simpl. by apply String.eqb_neq.
Qed.


(** The gate: a call whose package is in [resolved] returns no error, and
    changes nothing but, under -verbose, the output. *)
Lemma copyPkg_gate fuel w path newImportPath st pkg err :
  findPkg w path newImportPath = Ret (Some pkg, err) ->
  ImportPath pkg ∈ resolved st ->
  exists st', copyPkg (S fuel) w path newImportPath st = Ret ([], st') /\
    trace st' = trace st /\ resolved st' = resolved st /\ extends st st'.
Proof.
  intros Hf Hin. rewrite copyPkg_unfold, Hf. simpl.
  rewrite bool_decide_eq_true_2 by done.
  eexists; split; [reflexivity|].
  destruct (negb _); unfold verbosely; try destruct (verbose st);
    repeat split; simpl; reflexivity.
Qed.

(** C5. A package that go/build finds, with a name, in GOROOT: copyPkg
    returns no error and leaves every global variable and the world as they
    were: nothing is copied and go get is not run. *)
Theorem copyPkg_goroot_untouched fuel w path newImportPath st pkg :
  findPkg w path newImportPath = Ret (Some pkg, None) ->
  Name pkg <> "" ->
  Goroot pkg = true ->
  copyPkg (S fuel) w path newImportPath st = Ret ([], st).
Proof.
  intros Hf Hn Hg. rewrite copyPkg_unfold, Hf. simpl.
  rewrite Hg. simpl. destruct (bool_decide _); [done|].
  apply String.eqb_neq in Hn. by rewrite Hn.
Qed.

Lemma copyPkg_goroot_untouched_witness :
  copyPkg 1 Examples.acyclic "fmt" "" Examples.started = Ret ([], Examples.started).
Proof.
  eapply (copyPkg_goroot_untouched 0 Examples.acyclic "fmt" "" Examples.started);
    [reflexivity | simpl; discriminate | reflexivity].
Defined.



(** A call that returns has put the package in [resolved], unless the
    package was found, with a name, in GOROOT. *)
Lemma copyPkg_marks fuel w path newImportPath st errs st1 pkg err :
  findPkg w path newImportPath = Ret (Some pkg, err) ->
  copyPkg fuel w path newImportPath st = Ret (errs, st1) ->
  (usable pkg err -> Goroot pkg = false) ->
  ImportPath pkg ∈ resolved st1.
Proof.
  intros Hf Hc Hg. destruct fuel as [|fuel]; [discriminate|].
  rewrite copyPkg_unfold, Hf in Hc. simpl in Hc.
  destruct (bool_decide _) eqn:Hin.
  { apply bool_decide_eq_true_1 in Hin. inversion Hc; subst.
    destruct (negb _); unfold verbosely; try destruct (verbose st); simpl; done. }
  destruct (_ || _) eqn:Ht.
  { destruct (getPackage _ _ _) as [oe ev].
    destruct oe; inversion Hc; subst; simpl; set_solver. }
  assert (usable pkg err) as Hu.
  { apply orb_false_iff in Ht as [Hn Hnm]. split.
    - by destruct err.
    - by apply String.eqb_neq. }
  rewrite (Hg Hu) in Hc. simpl in Hc.
  run_inv Hc. destruct a as [e0 evs]. destruct Hu as [-> _].
  run_inv Hc. destruct a as [e1 st3].
  destruct (recursive _).
  - run_inv Hc. apply copySubs_extends in Hc; [|apply copyPkg_extends].
    apply (ext_resolved _ _ Hc). simpl. set_solver.
  - inversion Hc; subst. simpl. set_solver.
Qed.

(** C2, counterexample. The first call finds fmt in GOROOT and does not
    record it; the second call, for the directory /home/u/fmt under the
    import path fmt, is not stopped by [resolved] and copies the
    directory. *)
Lemma second_call_idle_fails :
  ~ second_call_idle Examples.acyclic 2 "fmt" "" "/home/u/fmt" "fmt" Examples.started.
Proof.
  intros H.
  destruct (H _ _ _ _ [] Examples.started eq_refl eq_refl eq_refl eq_refl)
    as (st2 & Hc & Htr).
  vm_compute in Hc. inversion Hc; subst st2. vm_compute in Htr. discriminate Htr.
Qed.

(** C2, amended. When the first call returns and its package is not one
    found, with a name, in GOROOT, the import path is in [resolved]
    afterwards, and every later call whose location resolves to that import
    path returns no error, changes neither the world nor [resolved], and
    makes no further call of copyPkg. *)
Theorem copyPkg_second_call fuel w path newImportPath st errs st1 pkg err :
  findPkg w path newImportPath = Ret (Some pkg, err) ->
  copyPkg fuel w path newImportPath st = Ret (errs, st1) ->
  (usable pkg err -> Goroot pkg = false) ->
  ImportPath pkg ∈ resolved st1 /\
  forall fuel' path' newImportPath' pkg' err',
    findPkg w path' newImportPath' = Ret (Some pkg', err') ->
    ImportPath pkg' = ImportPath pkg ->
    exists st2, copyPkg (S fuel') w path' newImportPath' st1 = Ret ([], st2) /\
                trace st2 = trace st1 /\ resolved st2 = resolved st1.
Proof.
  intros Hf Hc Hg.
  pose proof (copyPkg_marks _ _ _ _ _ _ _ _ _ Hf Hc Hg) as Hin.
  split; [exact Hin|].
  intros fuel' path' n' pkg' err' Hf' Heq.
  rewrite <- Heq in Hin.
  destruct (copyPkg_gate fuel' _ _ _ _ _ _ Hf' Hin) as (st2 & H1 & H2 & H3 & _).
  eauto.
Qed.

Lemma copyPkg_second_call_witness :
  "B" ∈ resolved Examples.afterB /\
  forall fuel' path' newImportPath' pkg' err',
    findPkg Examples.acyclic path' newImportPath' = Ret (Some pkg', err') ->
    ImportPath pkg' = "B" ->
    exists st2, copyPkg (S fuel') Examples.acyclic path' newImportPath' Examples.afterB
                = Ret ([], st2) /\
                trace st2 = trace Examples.afterB /\ resolved st2 = resolved Examples.afterB.
Proof.
  apply (copyPkg_second_call 3 Examples.acyclic "B" "" Examples.started []
           Examples.afterB Examples.pkgB None).
  - reflexivity.
  - vm_compute. reflexivity.
  - intros _. reflexivity.
Defined.

(** ** copyPkg(path, "") and copyPkg(path, path) *)

Lemma set_ImportPath_same pkg : set_ImportPath (ImportPath pkg) pkg = pkg.
Proof. by destruct pkg. Qed.

Lemma findPkg_own_import_path w path :
  keeps_import_path w -> directory_style path = false ->
  findPkg w path "" = findPkg w path path.
Proof.
  intros Hk Hd. pose proof (Hk _ Hd) as Hip.
  apply orb_false_iff in Hd as [Hl Ha].
  unfold findPkg. rewrite Hl. destruct path as [|c rest]; [reflexivity|].
  simpl in Ha. rewrite Ha. simpl.
  unfold import_found. destruct (buildImport w (String c rest) "") as [pkg err].
  simpl in Hip.
  assert (set_ImportPath (String c rest) pkg = pkg) as Hs
    by (rewrite <- Hip; apply set_ImportPath_same).
  simpl. by rewrite Hs.
Qed.

Lemma ordinary_not_directory_style path :
  starts_with_dot_or_slash path = false -> directory_style path = false.
Proof.
  destruct path as [|c rest]; [reflexivity|]. simpl.
  intros [Hdot Hslash]%orb_false_iff.
  assert (c <> "."%char) as Hne by (by apply Ascii.eqb_neq).
  unfold directory_style, IsLocalImport, IsAbs.
  rewrite !(proj2 (String.eqb_neq _ _)) by congruence.
  change (has_prefix "./" (String c rest))
    with (Ascii.eqb "."%char c && has_prefix "/" rest).
  change (has_prefix "../" (String c rest))
    with (Ascii.eqb "."%char c && has_prefix "./" rest).
  by rewrite (Ascii.eqb_sym "."%char c), Hdot, Hslash.
Qed.

(** C10. For a path that findPkg does not take for a directory, and a
    go/build that names a package by the import path it was asked for,
    copyPkg(path, "") and copyPkg(path, path) are the same call: the same
    errors and the same global variables and effects afterwards, or the
    same panic. A path that starts with neither a dot nor a slash is such
    a path ([ordinary_not_directory_style]). *)
Theorem copyPkg_default_import_path fuel w path st :
  keeps_import_path w -> directory_style path = false ->
  copyPkg fuel w path "" st = copyPkg fuel w path path st.
Proof.
  intros Hk Hd. destruct fuel as [|fuel]; [reflexivity|].
  rewrite !copyPkg_unfold. by rewrite (findPkg_own_import_path w path Hk Hd).
Qed.

Lemma keeps_import_path_acyclic : keeps_import_path Examples.acyclic.
Proof.
  intros path Hd. simpl. unfold Examples.lookup.
  destruct (String.eqb path ".") eqn:Hdot.
  { apply String.eqb_eq in Hdot. subst. discriminate Hd. }
  destruct (String.eqb path "A") eqn:HA; [by apply String.eqb_eq in HA|].
  destruct (String.eqb path "B") eqn:HB; [by apply String.eqb_eq in HB|].
  destruct (String.eqb path "fmt") eqn:HF; [by apply String.eqb_eq in HF|].
  reflexivity.
Qed.

Lemma copyPkg_default_import_path_witness :
  copyPkg 5 Examples.acyclic "A" "" Examples.started
  = copyPkg 5 Examples.acyclic "A" "A" Examples.started.
Proof.
  apply (copyPkg_default_import_path 5 Examples.acyclic "A" Examples.started).
  - exact keeps_import_path_acyclic.
  - reflexivity.
Defined.

(** ** The branch that copies *)

Lemma copyDeps_call_each call deps errs st :
  copyDeps call deps errs st =
  '(es, st') ← call_each call (map (fun d => (d, "")) deps) st;
  Ret (errs ++ List.concat es, st').
Proof.
  revert errs st. induction deps as [|d deps IH]; intros errs st; simpl.
  - by rewrite app_nil_r.
  - destruct (call d "" st) as [[e st1]| | |]; try reflexivity. simpl.
    rewrite IH. destruct (call_each _ _ st1) as [[es st2]| | |]; try reflexivity.
    simpl. by rewrite <- List.app_assoc.
Qed.

Lemma copySubs_call_each call ip subs errs st :
  copySubs call ip subs errs st =
  '(es, st') ← call_each (sub_call call ip)
                 (map (fun s => (arg_path s, arg_newImportPath s)) subs) st;
  Ret (errs ++ List.concat es, st').
Proof.
  unfold sub_call.
  revert errs st. induction subs as [|s subs IH]; intros errs st; simpl.
  - by rewrite app_nil_r.
  - destruct (call (arg_path s) (arg_newImportPath s) _) as [[e st1]| | |];
      try reflexivity. simpl.
    rewrite IH. destruct (call_each _ _ st1) as [[es st2]| | |]; try reflexivity.
    simpl. by rewrite <- List.app_assoc.
Qed.

(** C4. In the branch for a package that was found, with a name, outside
    GOROOT (and is not yet in [resolved]): whatever errors copyDir returns,
    copyPkg is called for every import of the package in turn and, under
    -recursive, for every subpackage findSubPkgs returns, in turn; the
    errors returned are those of copyDir, then those of each call for an
    import, then those of each call for a subpackage, in that order. *)
Theorem copyPkg_copy_branch fuel w path newImportPath st pkg :
  findPkg w path newImportPath = Ret (Some pkg, None) ->
  Name pkg <> "" ->
  Goroot pkg = false ->
  ImportPath pkg ∉ resolved st ->
  copyPkg (S fuel) w path newImportPath st = copy_branch fuel w st pkg.
Proof.
  intros Hf Hn Hg Hin. unfold copy_branch. rewrite copyPkg_unfold, Hf. simpl.
  rewrite bool_decide_eq_false_2 by done.
  apply String.eqb_neq in Hn. rewrite Hn, Hg. simpl.
  assert (workspace (verbosely ("Copying " +:+ ImportPath pkg +:+ " from "
            +:+ quoted (render (Dir pkg)) +:+ ".") st) = workspace st) as ->
    by (unfold verbosely; destruct (verbose st); reflexivity).
  destruct (copyDir _ _ _ _) as [[e0 evs]| | |]; try reflexivity. simpl.
  rewrite copyDeps_call_each.
  destruct (call_each _ _ _) as [[es st3]| | |]; try reflexivity. simpl.
  unfold mark. destruct (recursive st3); [|reflexivity].
  destruct (findSubPkgs _ _ _ _) as [subs| | |]; try reflexivity. simpl.
  rewrite copySubs_call_each.
  destruct (call_each _ _ _) as [[es' st5]| | |]; try reflexivity. simpl.
  by rewrite <- List.app_assoc.
Qed.

Lemma copyPkg_copy_branch_witness :
  copyPkg 4 Examples.faulty "A" "" Examples.started
  = copy_branch 3 Examples.faulty Examples.started Examples.pkgA.
Proof.
  apply (copyPkg_copy_branch 3 Examples.faulty "A" "" Examples.started Examples.pkgA).
  - reflexivity.
  - simpl. discriminate.
  - reflexivity.
  - simpl. apply not_elem_of_empty.
Defined.

(** In [faulty] the copy of A fails on a.go; B is copied all the same, and
    the error of a.go is what copyPkg returns. *)
Example copyPkg_goes_on_after_copy_error :
  exists st',
    copyPkg 4 Examples.faulty "A" "" Examples.started
    = Ret ([fmtErr ("Couldn't read file " +:+ quoted "/go/src/A/a.go"
                    +:+ ": permission denied.")
                   "couldn't open file for reading: /go/src/A/a.go: permission denied"],
           st') /\
    trace Examples.afterB `sublist_of` trace st' /\
    resolved st' = {["A/sub"]} ∪ ({["A"]} ∪ ({["B"]} ∪ ∅)).
Proof.
  eexists. split; [vm_compute; reflexivity|]. split.
  - vm_compute. repeat first [apply sublist_nil | apply sublist_skip; [] | apply sublist_cons].
  - vm_compute. reflexivity.
Qed.

(** ** Walks *)

Lemma node_nested_ind (P : node -> Prop) :
  (forall nm m, P (FileNode nm m)) ->
  (forall nm m e ents, Forall P ents -> P (DirNode nm m e ents)) ->
  forall n, P n.
Proof.
  intros Hf Hd. fix IH 1. intros [nm m|nm m e ents].
  - apply Hf.
  - apply Hd. induction ents as [|c ents IHents]; constructor.
    + apply IH.
    + apply IHents.
Qed.

Lemma walk_unfold {S} (fn : WalkFunc S) n p s :
  walk fn n p s =
  '(r, s1) ← fn p (Some (info_of n)) None s;
  match r with
  | WSkipDir => if node_isdir n then Ret (WNil, s1) else Ret (WSkipDir, s1)
  | WNil =>
      match n with
      | FileNode _ _ => Ret (WNil, s1)
      | DirNode _ _ (Some e) _ => fn p (Some (info_of n)) (Some e) s1
      | DirNode _ _ None ents => walk_entries (walk fn) p ents s1
      end
  end.
Proof. destruct n; reflexivity. Qed.

Section WalkInvariant.
Context {S : Type} (fn : WalkFunc S) (ok : Path -> Prop) (I : S -> Prop).

(** The callback keeps [I] wherever [ok] holds, and goes down from a
    directory at an [ok] path only to [ok] paths. *)
Hypothesis fn_keeps : forall p i e s r s',
  ok p -> I s -> fn p i e s = Ret (r, s') -> I s'.
Hypothesis fn_descends : forall p i s s' nm,
  ok p -> fi_isdir i = true -> fn p (Some i) None s = Ret (WNil, s') -> ok (p ++ [nm]).

Lemma walk_keeps n : forall p s r s',
  ok p -> I s -> walk fn n p s = Ret (r, s') -> I s'.
Proof.
  induction n as [nm m|nm m e ents IH] using node_nested_ind;
    intros p s r s' Hok Hs H; rewrite walk_unfold in H; run_inv H;
    destruct a as [r1 s1]; pose proof (fn_keeps _ _ _ _ _ _ Hok Hs Hm) as Hs1.
  - destruct r1; simpl in H; inversion H; by subst.
  - destruct r1; [|simpl in H; inversion H; by subst].
    destruct e as [msg|]; [by eapply fn_keeps; eauto|].
    assert (forall nm', ok (p ++ [nm'])) as Hdown
      by (intros nm'; apply (fn_descends p (info_of (DirNode nm m None ents)) s s1);
          [exact Hok | reflexivity | exact Hm]).
    clear Hm Hs. revert s1 Hs1 H.
    induction IH as [|c ents Hc _ IHents]; intros s1 Hs1 H; simpl in H.
    + inversion H; by subst.
    + run_inv H. destruct a as [r2 s2].
      pose proof (Hc _ _ _ _ (Hdown _) Hs1 Hm) as Hs2.
      destruct r2; [by eapply IHents|].
      destruct (node_isdir c); [by eapply IHents|]. inversion H; by subst.
Qed.

Lemma Walk_keeps fs root s s' :
  ok root -> I s -> Walk fs fn root s = Ret s' -> I s'.
Proof.
  intros Hok Hs H. unfold Walk in H. destruct (lookup_node fs root) as [n|].
  - run_inv H. destruct a as [r s1]. inversion H; subst.
    eapply walk_keeps; eauto.
  - run_inv H. destruct a as [r s1]. inversion H; subst.
    eapply fn_keeps; eauto.
Qed.
End WalkInvariant.

(** ** What copyFunc can do *)

Lemma copyFunc_inv w st src dst p i e c r c' :
  copyFunc w st src dst p i e c = Ret (r, c') ->
  (exists msg, e = Some msg /\ r = WNil /\
     c_stack c' = c_stack c /\ c_trace c' = c_trace c)
  \/ (exists info, e = None /\ i = Some info /\ c' = c /\
        (r = WSkipDir \/ fi_isdir info = false))
  \/ (exists info rel, e = None /\ i = Some info /\ r = WNil /\
        p <> workspace st /\ Rel src p = Some rel /\
        ((fi_isdir info = true /\
          exists ok, c_trace c' = c_trace c ++ [EvMkdirAll (dst ++ rel) dirPerm ok] /\
                     c_stack c' = c_stack c ++ (if ok then [pushed dst rel info] else []))
         \/ (fi_isdir info = false /\
             c_trace c' = c_trace c ++ snd (copyFile w p (dst ++ rel)) /\
             c_stack c' = c_stack c ++ [pushed dst rel info]))).
Proof.
  unfold copyFunc. intros H. destruct e as [msg|].
  { inversion H; subst. left. eauto. }
  destruct i as [info|]; [|discriminate]. run_inv H. destruct a.
  { destruct (fi_isdir info) eqn:Hd; inversion H; subst; right; left; eauto 8. }
  unfold path_eqb in H. case_bool_decide as Hws.
  { inversion H; subst. right; left; eauto 8. }
  destruct (Rel src p) as [rel|]; [|discriminate].
  right; right. exists info, rel. destruct (fi_isdir info) eqn:Hd.
  - destruct (osMkdirAll w (dst ++ rel) dirPerm);
      inversion H; subst; repeat split; auto; left; (split; [reflexivity|]).
    + exists false. simpl. by rewrite app_nil_r.
    + exists true. simpl. auto.
  - destruct (copyFile w p (dst ++ rel)) as [oe evs] eqn:Hcf.
    inversion H; subst; repeat split; auto.
Qed.

(** ** The events of copyFile, of the chmod loop and of copyDir *)

Lemma copyFile_events w src dst ev :
  ev ∈ snd (copyFile w src dst) ->
  (exists ok, ev = EvCreate dst ok) \/ (exists ok, ev = EvCopyData src dst ok).
Proof.
  unfold copyFile.
  destruct (osOpen w src); [simpl; by intros ?%elem_of_nil|].
  destruct (osCreate w dst); [|destruct (ioCopy w dst src)]; simpl; intros H;
    repeat (apply elem_of_cons in H as [->|H]); try (by apply elem_of_nil in H); eauto.
Qed.

Lemma chmodAll_trace w todo errs tr :
  snd (chmodAll w todo errs tr) = tr ++ map (chmod_event w) todo.
Proof.
  revert errs tr. induction todo as [|c todo IH]; intros errs tr; simpl.
  - by rewrite app_nil_r.
  - unfold chmod_event at 1.
    destruct (osChmod w (chmod_path c) (chmod_mode c)); rewrite IH;
      by rewrite <- List.app_assoc.
Qed.

(** copyDir is the walk with copyFunc followed by the chmod of the stack,
    last entry first. *)
Lemma copyDir_inv w st src dst errs evs :
  copyDir w st src dst = Ret (errs, evs) ->
  exists c,
    Walk (fs w) (copyFunc w st src dst) src
      {| c_errs := []; c_stack := []; c_trace := [] |} = Ret c /\
    evs = c_trace c ++ map (chmod_event w) (rev (c_stack c)).
Proof.
  unfold copyDir. intros H. run_inv H. exists a. split; [done|].
  injection H as H. by rewrite <- (chmodAll_trace w _ (c_errs a)), H.
Qed.

(** ** The permissions of the directories the program creates *)

Lemma dirPerm_bits :
  owner_bits dirPerm = (true, true, true) /\
  group_bits dirPerm = (true, false, false) /\
  other_bits dirPerm = (true, false, false).
Proof. by vm_compute. Qed.

Lemma copyFunc_mkdirs w st src dst c :
  Walk (fs w) (copyFunc w st src dst) src
    {| c_errs := []; c_stack := []; c_trace := [] |} = Ret c ->
  forall p m ok, EvMkdirAll p m ok ∈ c_trace c -> m = dirPerm.
Proof.
  intros H.
  apply (Walk_keeps (copyFunc w st src dst) (fun _ => True)
           (fun c => forall p m ok, EvMkdirAll p m ok ∈ c_trace c -> m = dirPerm))
    with (fs := fs w) (root := src)
         (s := {| c_errs := []; c_stack := []; c_trace := [] |}); auto.
  - clear. intros p i e c r c' _ Hc Hstep q m ok Hin.
    apply copyFunc_inv in Hstep
      as [(msg & _ & _ & _ & Ht)|[(info & _ & _ & -> & _)|(info & rel & _ & _ & _ & _ & _ & Hk)]].
    + rewrite Ht in Hin. eauto.
    + eauto.
    + destruct Hk as [(_ & ok' & Ht & _)|(_ & Ht & _)]; rewrite Ht in Hin;
        apply elem_of_app in Hin as [Hin|Hin]; eauto.
      * apply list_elem_of_singleton in Hin. by inversion Hin.
      * apply copyFile_events in Hin as [[? ?]|[? ?]]; discriminate.
  - simpl. intros p m ok Hin. by apply elem_of_nil in Hin.
Qed.

(** C8, counterexample. The one directory createWorkspace makes in the
    example world is asked for with the bits rwxr--r--, not rwxr-x---. *)
Lemma mkdir_not_rwxr_x :
  ~ mkdirs_as (true, true, true) (true, false, true) (false, false, false)
      (trace (snd (createWorkspace Examples.acyclic "/go/src/A/ws" (initial defaultFlags)))).
Proof.
  intros H.
  destruct (H Examples.ws 484 true) as (_ & Hg & _).
  - vm_compute. apply list_elem_of_here.
  - vm_compute in Hg. discriminate Hg.
Qed.

(** C8, amended. Every directory the program creates, the workspace in
    createWorkspace and the directories of a copy in copyDir, is asked for
    with mode 0744: read, write and execute for the owner, read alone for
    the group and for the others. *)
Theorem mkdir_permissions w :
  (forall path st, exists evs,
      trace (snd (createWorkspace w path st)) = trace st ++ evs /\
      mkdirs_as (true, true, true) (true, false, false) (true, false, false) evs) /\
  (forall st src dst errs evs,
      copyDir w st src dst = Ret (errs, evs) ->
      mkdirs_as (true, true, true) (true, false, false) (true, false, false) evs).
Proof.
  split.
  - intros path st. unfold createWorkspace.
    destruct (String.eqb path "");
      [|destruct (filepathAbs w path) as [absPath|];
        [destruct (osMkdirAll w absPath dirPerm)|]]; simpl.
    1,4: exists []; split; [by rewrite app_nil_r|]; intros p m ok Hin;
         by apply elem_of_nil in Hin.
    all: eexists; split; [reflexivity|]; intros p m ok Hin;
         apply list_elem_of_singleton in Hin; inversion Hin; subst;
         exact dirPerm_bits.
  - intros st src dst errs evs H p m ok Hin.
    apply copyDir_inv in H as (c & Hw & ->).
    apply elem_of_app in Hin as [Hin|Hin].
    + rewrite (copyFunc_mkdirs _ _ _ _ _ Hw _ _ _ Hin). exact dirPerm_bits.
    + apply list_elem_of_fmap in Hin as (x & Hx & _). discriminate Hx.
Qed.

Lemma mkdir_permissions_witness :
  mkdirs_as (true, true, true) (true, false, false) (true, false, false) Examples.copyOfB.
Proof.
  apply (proj2 (mkdir_permissions Examples.acyclic) Examples.started Examples.dirB
           (Examples.ws ++ ["src"; "B"]) [] Examples.copyOfB).
  vm_compute. reflexivity.
Defined.

(** ** The exit status *)

(** A syntax error that is not fatal is printed with the usage text, and
    the exit code is left as it was. *)
Lemma checkError_syntaxErr f m rest st :
  checkError false (Some (syntaxErr f m) :: rest) st
  = Ret (true, eprint usage (eprint f st)).
Proof. reflexivity. Qed.

(** Any other error that is not fatal sets the exit code to 3. *)
Lemma checkError_fmtErr f m rest st :
  checkError false (Some (fmtErr f m) :: rest) st
  = Ret (true, set_exitCode 3 (eprint f st)).
Proof. reflexivity. Qed.

Lemma checkError_otherErr m rest st :
  checkError false (Some (otherErr m) :: rest) st
  = Ret (true, set_exitCode 3 (eprint m st)).
Proof. reflexivity. Qed.

(** Without an error checkError changes nothing. *)
Lemma checkError_nil fatal st : checkError fatal (map Some []) st = Ret (false, st).
Proof. reflexivity. Qed.

(** C9, the failing run. The second argument, ":x", has no import path:
    parseImport returns a syntax error, main prints it with the usage text
    and goes on to copy B, and the process ends with status 0. *)
Theorem main_exit_0_after_syntax_error :
  exists st,
    main 3 Examples.acyclic defaultFlags ["/go/src/A/ws"; ":x"; "B"] = Ret st /\
    exit_status (Ret st) = Some 0%Z /\
    stderr st = [quoted ":x" +:+ " isn't a valid import path."; usage] /\
    trace st = EvMkdirAll Examples.ws 484 true :: Examples.copyOfB.
Proof.
  eexists. split; [vm_compute; reflexivity|]. repeat split.
Qed.

(** The same run with a package that go get cannot fetch in place of the
    malformed argument ends with status 3. *)
Example main_exit_3_after_fmtErr :
  exit_status (main 3 Examples.acyclic defaultFlags ["/go/src/A/ws"; "E"; "B"]) = Some 3%Z.
Proof. vm_compute. reflexivity. Qed.

Example main_exit_0_without_error :
  exit_status (main 3 Examples.acyclic defaultFlags ["/go/src/A/ws"; "B"]) = Some 0%Z.
Proof. vm_compute. reflexivity. Qed.

(** ** The walks and the workspace *)

Lemma logged_step {S} (fn : WalkFunc S) p i e s l :
  logged fn p i e (s, l) = '(r, s') ← fn p i e s; Ret (r, (s', l ++ [p])).
Proof. reflexivity. Qed.

Lemma walk_logged {S} (fn : WalkFunc S) n : forall p s l,
  forget (walk (logged fn) n p (s, l)) = walk fn n p s.
Proof.
  induction n as [nm m|nm m e ents IH] using node_nested_ind; intros p s l;
    rewrite !walk_unfold, logged_step;
    destruct (fn p _ None s) as [[r s1]| | |]; try reflexivity; simpl.
  - by destruct r.
  - destruct r; [|reflexivity]. destruct e as [msg|].
    + rewrite logged_step. by destruct (fn p _ (Some msg) s1) as [[r2 s2]| | |].
    + generalize (l ++ [p]). revert s1.
      induction IH as [|c ents Hc _ IHents]; intros s1 l1; simpl; [reflexivity|].
      specialize (Hc (p ++ [node_name c]) s1 l1).
      destruct (walk (logged fn) c _ (s1, l1)) as [[r2 [s2 l2]]| | |];
        simpl in Hc; rewrite <- Hc; try reflexivity; simpl.
      destruct r2; [apply IHents|]. destruct (node_isdir c); [apply IHents|reflexivity].
Qed.

Lemma Walk_logged {S} (fn : WalkFunc S) fs root s s' :
  Walk fs fn root s = Ret s' ->
  exists l, Walk fs (logged fn) root (s, []) = Ret (s', l).
Proof.
  unfold Walk. destruct (lookup_node fs root) as [n|]; intros H.
  - run_inv H. destruct a as [r s1]. inversion H; subst.
    pose proof (walk_logged fn n root s []) as Hl. rewrite Hm in Hl.
    destruct (walk (logged fn) n root (s, [])) as [[r2 [s2 l2]]| | |];
      try discriminate. inversion Hl; subst. by exists l2.
  - run_inv H. destruct a as [r s1]. inversion H; subst.
    unfold logged. simpl. rewrite Hm. simpl. eauto.
Qed.

Lemma visits_defined {S} (fn : WalkFunc S) fs root s s' :
  Walk fs fn root s = Ret s' ->
  exists l, visits fs fn root s = Some l /\
            Walk fs (logged fn) root (s, []) = Ret (s', l).
Proof.
  intros H. destruct (Walk_logged _ _ _ _ _ H) as [l Hl].
  exists l. unfold visits. by rewrite Hl.
Qed.

Lemma inside_snoc ws p nm : inside ws (p ++ [nm]) -> p = ws \/ inside ws p.
Proof.
  intros (rel & Hne & Heq).
  destruct (decide (rel = [])) as [->|_]; [done|].
  destruct rel as [|x rel] using rev_ind; [done|]. clear IHrel.
  rewrite app_assoc in Heq. apply app_inj_tail in Heq as [-> _].
  destruct rel as [|y rel]; [left; by rewrite app_nil_r|].
  right. exists (y :: rel). split; [done|reflexivity].
Qed.

Lemma inside_not_back base ws : inside base ws -> ~ inside ws base /\ base <> ws.
Proof.
  intros (rel & Hne & ->). split.
  - intros (rel' & Hne' & Heq). apply (f_equal (@List.length string)) in Heq.
    rewrite !length_app in Heq. destruct rel, rel'; simpl in *; try done; lia.
  - intros Heq. apply (f_equal (@List.length string)) in Heq. rewrite length_app in Heq.
    destruct rel; simpl in *; [done|lia].
Qed.

(** A walk whose callback goes down from no directory at the workspace
    never calls it below the workspace. *)
Lemma logged_walk_outside {S} (fn : WalkFunc S) ws fs root s s' l :
  (forall p i s s', fi_isdir i = true ->
     fn p (Some i) None s = Ret (WNil, s') -> p <> ws) ->
  ~ inside ws root ->
  Walk fs (logged fn) root (s, []) = Ret (s', l) ->
  forall p, p ∈ l -> ~ inside ws p.
Proof.
  intros Hskip Hroot H.
  apply (Walk_keeps (logged fn) (fun p => ~ inside ws p)
           (fun sl => forall p, p ∈ snd sl -> ~ inside ws p))
    with (fs := fs) (root := root) (s := (s, [])) (s' := (s', l)); auto.
  - intros p i e [s1 l1] r [s2 l2] Hok Hl Hstep q Hq. unfold logged in Hstep.
    run_inv Hstep. destruct a as [r' s3]. inversion Hstep; subst. simpl in *.
    apply elem_of_app in Hq as [Hq|Hq]; [by apply Hl|].
    apply list_elem_of_singleton in Hq. by subst.
  - intros p i [s1 l1] [s2 l2] nm Hok Hd Hstep Hin. unfold logged in Hstep.
    run_inv Hstep. destruct a as [r' s3]. inversion Hstep; subst. simpl in *.
    apply inside_snoc in Hin as [->|Hin]; [|done].
    by eapply Hskip.
  - simpl. intros p Hp. by apply elem_of_nil in Hp.
Qed.

Lemma copyFunc_skips_workspace w st src dst p i c c' :
  fi_isdir i = true ->
  copyFunc w st src dst p (Some i) None c = Ret (WNil, c') -> p <> workspace st.
Proof.
  intros Hd H.
  apply copyFunc_inv in H
    as [(msg & ? & _)|[(info & _ & Hi & _ & [?|Hf])|(info & rel & _ & _ & _ & Hws & _)]];
    try done.
  inversion Hi; subst. congruence.
Qed.

Lemma subPkgFunc_skips_workspace w st base ip p i s s' :
  base <> workspace st ->
  fi_isdir i = true ->
  subPkgFunc w st base ip p (Some i) None s = Ret (WNil, s') -> p <> workspace st.
Proof.
  intros Hb Hd H. unfold subPkgFunc, path_eqb in H.
  case_bool_decide as Hp; [by subst|].
  rewrite Hd in H. case_bool_decide as Hws; [discriminate|done].
Qed.

(** Whatever copyFunc writes, and whatever it pushes on the stack, is at
    or below the destination. *)
Lemma copyFunc_writes_below w st src dst c :
  Walk (fs w) (copyFunc w st src dst) src copying0 = Ret c ->
  (forall ev q, ev ∈ c_trace c -> written ev = Some q -> dst `prefix_of` q) /\
  (forall x, x ∈ c_stack c -> dst `prefix_of` chmod_path x).
Proof.
  intros H.
  apply (Walk_keeps (copyFunc w st src dst) (fun _ => True)
           (fun c => (forall ev q, ev ∈ c_trace c -> written ev = Some q -> dst `prefix_of` q) /\
                     (forall x, x ∈ c_stack c -> dst `prefix_of` chmod_path x)))
    with (fs := fs w) (root := src) (s := copying0); auto.
  - clear. intros p i e c r c' _ [Ht Hs] Hstep.
    apply copyFunc_inv in Hstep
      as [(msg & _ & _ & Hs' & Ht')|[(info & _ & _ & -> & _)|(info & rel & _ & _ & _ & _ & _ & Hk)]].
    + rewrite Hs', Ht'. by split.
    + by split.
    + destruct Hk as [(_ & ok & Ht' & Hs')|(_ & Ht' & Hs')]; rewrite Ht', Hs'; split.
      * intros ev q [Hin|Hin]%elem_of_app Hw; [by eapply Ht|].
        apply list_elem_of_singleton in Hin. subst. inversion Hw. by apply prefix_app_r.
      * intros x [Hin|Hin]%elem_of_app; [by apply Hs|].
        destruct ok; [|by apply elem_of_nil in Hin].
        apply list_elem_of_singleton in Hin. subst. by apply prefix_app_r.
      * intros ev q [Hin|Hin]%elem_of_app Hw; [by eapply Ht|].
        apply copyFile_events in Hin as [[ok ->]|[ok ->]]; inversion Hw;
          by apply prefix_app_r.
      * intros x [Hin|Hin]%elem_of_app; [by apply Hs|].
        apply list_elem_of_singleton in Hin. subst. by apply prefix_app_r.
  - split; simpl; [intros ev q Hin _|intros x Hin]; by apply elem_of_nil in Hin.
Qed.

Lemma copyDir_writes_below w st src dst errs evs :
  copyDir w st src dst = Ret (errs, evs) ->
  forall ev q, ev ∈ evs -> written ev = Some q -> dst `prefix_of` q.
Proof.
  intros H ev q Hin Hw. apply copyDir_inv in H as (c & Hwalk & ->).
  destruct (copyFunc_writes_below _ _ _ _ _ Hwalk) as [Ht Hs].
  apply elem_of_app in Hin as [Hin|Hin]; [by eapply Ht|].
  apply list_elem_of_fmap in Hin as (x & -> & Hx). inversion Hw; subst.
  apply Hs. by rewrite list_elem_of_In, <- in_rev, <- list_elem_of_In in Hx.
Qed.

(** ** The walks end *)

Lemma walk_not_Timeout {S} (fn : WalkFunc S) n :
  (forall p i e s, fn p i e s <> Timeout) ->
  forall p s, walk fn n p s <> Timeout.
Proof.
  intros Hfn.
  induction n as [nm m|nm m e ents IH] using node_nested_ind; intros p s H;
    rewrite walk_unfold in H;
    apply bind_Timeout_inv in H as [H|([r s1] & _ & H)]; try by eapply Hfn.
  - by destruct r.
  - destruct r; [|discriminate]. destruct e as [msg|]; [by eapply Hfn|].
    revert s1 H. induction IH as [|c ents Hc _ IHents]; intros s1 H; simpl in H;
      [discriminate|].
    apply bind_Timeout_inv in H as [H|([r2 s2] & _ & H)]; [by eapply Hc|].
    destruct r2; [by eapply IHents|].
    destruct (node_isdir c); [by eapply IHents|discriminate].
Qed.

Lemma Walk_not_Timeout {S} (fn : WalkFunc S) fs root s :
  (forall p i e s, fn p i e s <> Timeout) -> Walk fs fn root s <> Timeout.
Proof.
  intros Hfn H. unfold Walk in H. destruct (lookup_node fs root) as [n|];
    apply bind_Timeout_inv in H as [H|([r s1] & _ & H)]; try discriminate.
  - by eapply walk_not_Timeout.
  - by eapply Hfn.
Qed.

Lemma findPkg_not_Timeout w path newImportPath : findPkg w path newImportPath <> Timeout.
Proof.
  unfold findPkg, import_found. intros H.
  apply bind_Timeout_inv in H as [H|(isdir & _ & H)].
  - destruct (IsLocalImport path); [discriminate|]. by destruct path.
  - repeat (case_match; try discriminate).
Qed.

Lemma copyFunc_not_Timeout w st src dst p i e c : copyFunc w st src dst p i e c <> Timeout.
Proof.
  unfold copyFunc. intros H. destruct e; [discriminate|]. destruct i as [info|]; [|discriminate].
  apply bind_Timeout_inv in H as [H|(dot & _ & H)].
  - destruct (hidden st); [discriminate|]. by destruct (fi_name info).
  - repeat (case_match; try discriminate).
Qed.

Lemma subPkgFunc_not_Timeout w st base ip p i e s : subPkgFunc w st base ip p i e s <> Timeout.
Proof.
  unfold subPkgFunc. intros H.
  repeat (case_match; try discriminate).
  apply bind_Timeout_inv in H as [H|([opkg e'] & _ & H)].
  - by eapply findPkg_not_Timeout.
  - repeat (case_match; try discriminate).
Qed.

Lemma copyDir_not_Timeout w st src dst : copyDir w st src dst <> Timeout.
Proof.
  unfold copyDir. intros H. apply bind_Timeout_inv in H as [H|(c & _ & H)]; [|discriminate].
  eapply Walk_not_Timeout; [|exact H]. intros. apply copyFunc_not_Timeout.
Qed.

Lemma findSubPkgs_not_Timeout w st base ip : findSubPkgs w st base ip <> Timeout.
Proof.
  unfold findSubPkgs. apply Walk_not_Timeout. intros. apply subPkgFunc_not_Timeout.
Qed.

(** C6. With the workspace nested in the directory that copyDir or
    findSubPkgs walks, the callback is never called with a path below the
    workspace: the walk meets the workspace and skips what it holds. Both
    walks end, and all that copyDir writes lies at or below its
    destination, so that with the destination in the workspace the walk
    never reads what the copy has written. *)
Theorem walks_stay_out_of_workspace w st base :
  inside base (workspace st) ->
  (forall dst,
     copyDir w st base dst <> Timeout /\
     forall errs evs, copyDir w st base dst = Ret (errs, evs) ->
       (exists visited,
          visits (fs w) (copyFunc w st base dst) base copying0 = Some visited /\
          forall p, p ∈ visited -> ~ inside (workspace st) p) /\
       (forall ev q, ev ∈ evs -> written ev = Some q -> dst `prefix_of` q)) /\
  (forall ip,
     findSubPkgs w st base ip <> Timeout /\
     forall subs, findSubPkgs w st base ip = Ret subs ->
       exists visited,
         visits (fs w) (subPkgFunc w st base ip) base [] = Some visited /\
         forall p, p ∈ visited -> ~ inside (workspace st) p).
Proof.
  intros Hnest. destruct (inside_not_back _ _ Hnest) as [Hroot Hne]. split.
  - intros dst. split; [apply copyDir_not_Timeout|]. intros errs evs H. split.
    + apply copyDir_inv in H as (c & Hw & _).
      destruct (visits_defined _ _ _ _ _ Hw) as (l & Hv & Hl).
      exists l. split; [exact Hv|].
      eapply logged_walk_outside; [|exact Hroot|exact Hl].
      intros p i c1 c2. apply copyFunc_skips_workspace.
    + by eapply copyDir_writes_below.
  - intros ip. split; [apply findSubPkgs_not_Timeout|]. intros subs H.
    destruct (visits_defined _ _ _ _ _ H) as (l & Hv & Hl).
    exists l. split; [exact Hv|].
    eapply logged_walk_outside; [|exact Hroot|exact Hl].
    intros p i s1 s2. by apply subPkgFunc_skips_workspace.
Qed.

Lemma walks_stay_out_of_workspace_witness :
  (forall dst,
     copyDir Examples.acyclic Examples.started Examples.dirA dst <> Timeout /\
     forall errs evs,
       copyDir Examples.acyclic Examples.started Examples.dirA dst = Ret (errs, evs) ->
       (exists visited,
          visits Examples.tree
            (copyFunc Examples.acyclic Examples.started Examples.dirA dst)
            Examples.dirA copying0 = Some visited /\
          forall p, p ∈ visited -> ~ inside Examples.ws p) /\
       (forall ev q, ev ∈ evs -> written ev = Some q -> dst `prefix_of` q)) /\
  (forall ip,
     findSubPkgs Examples.acyclic Examples.started Examples.dirA ip <> Timeout /\
     forall subs,
       findSubPkgs Examples.acyclic Examples.started Examples.dirA ip = Ret subs ->
       exists visited,
         visits Examples.tree
           (subPkgFunc Examples.acyclic Examples.started Examples.dirA ip)
           Examples.dirA [] = Some visited /\
         forall p, p ∈ visited -> ~ inside Examples.ws p).
Proof.
  apply (walks_stay_out_of_workspace Examples.acyclic Examples.started Examples.dirA).
  exists ["ws"]. split; [discriminate|reflexivity].
Defined.

(** The paths of the two walks of A in the example world: the workspace
    /go/src/A/ws is met, and src and old.go in it are not. *)
Example visits_of_copyDir :
  visits Examples.tree
    (copyFunc Examples.acyclic Examples.started Examples.dirA (Examples.ws ++ ["src"; "A"]))
    Examples.dirA copying0
  = Some [ Examples.dirA; Examples.dirA ++ [".git"]; Examples.dirA ++ ["a.go"];
           Examples.dirA ++ ["ro.txt"]; Examples.dirA ++ ["sub"];
           Examples.dirA ++ ["sub"; "s.go"]; Examples.ws ].
Proof. vm_compute. reflexivity. Qed.

Example visits_of_findSubPkgs :
  visits Examples.tree (subPkgFunc Examples.acyclic Examples.started Examples.dirA "A")
    Examples.dirA []
  = Some [ Examples.dirA; Examples.dirA ++ [".git"]; Examples.dirA ++ [".git"; "config"];
           Examples.dirA ++ ["a.go"]; Examples.dirA ++ ["ro.txt"]; Examples.dirA ++ ["sub"];
           Examples.dirA ++ ["sub"; "s.go"]; Examples.ws ].
Proof. vm_compute. reflexivity. Qed.

(** ** The stack of copyDir *)

Lemma Rel_app base rel : Rel base (base ++ rel) = Some rel.
Proof. induction base as [|b base IH]; simpl; [done|]. by rewrite String.eqb_refl. Qed.

Lemma find_entry_distinct ents c :
  NoDup (map node_name ents) -> c ∈ ents -> find_entry (node_name c) ents = Some c.
Proof.
  induction ents as [|d ents IH]; simpl; intros Hnd Hin; [by apply elem_of_nil in Hin|].
  apply NoDup_cons in Hnd as [Hd Hnd].
  apply elem_of_cons in Hin as [->|Hin]; [by rewrite String.eqb_refl|].
  destruct (String.eqb (node_name d) (node_name c)) eqn:Heq; [|by apply IH].
  apply String.eqb_eq in Heq. exfalso. apply Hd. rewrite Heq.
  apply list_elem_of_fmap. eauto.
Qed.

Lemma lookup_node_app root p q n :
  lookup_node root p = Some n -> lookup_node root (p ++ q) = lookup_node n q.
Proof.
  revert root. induction p as [|c p IH]; simpl; intros root H; [by inversion H|].
  destruct root as [|nm m e ents]; [done|].
  destruct (find_entry c ents); [by apply IH|done].
Qed.

Lemma walk_copy_stack w st src dst n :
  distinct_names n = true ->
  forall rel0 c r c',
    walk (copyFunc w st src dst) n (src ++ rel0) c = Ret (r, c') ->
    exists new, c_stack c' = c_stack c ++ new /\ stack_of n (dst ++ rel0) new.
Proof.
  induction n as [nm m|nm m e ents IH] using node_nested_ind;
    intros Hwf rel0 c r c' H; rewrite walk_unfold in H; run_inv H;
    destruct a as [r1 c1];
    apply copyFunc_inv in Hm
      as [(msg & ? & _)|[(info & _ & Hi & -> & Hr)|
          (info & rel & _ & Hi & -> & _ & Hrel & Hk)]]; try done.
  - (* a file that is skipped *)
    exists []. split; [|split; [constructor|intros x Hx; by apply elem_of_nil in Hx]].
    destruct r1; inversion H; subst; by rewrite app_nil_r.
  - (* a file that is copied *)
    rewrite Rel_app in Hrel. inversion Hrel; subst rel. inversion Hi; subst info.
    destruct Hk as [(Hd & _)|(_ & _ & Hs)]; [discriminate|].
    inversion H; subst. eexists. split; [exact Hs|]. split.
    + simpl. apply NoDup_singleton.
    + intros x Hx. apply list_elem_of_singleton in Hx. subst x.
      exists [], (FileNode nm m). simpl. by rewrite app_nil_r.
  - (* a directory that is skipped *)
    inversion Hi; subst info. destruct Hr as [->|Hr]; [|discriminate].
    inversion H; subst.
    exists []. split; [by rewrite app_nil_r|].
    split; [constructor|intros x Hx; by apply elem_of_nil in Hx].
  - (* a directory that is created, or fails to be *)
    rewrite Rel_app in Hrel. inversion Hrel; subst rel. inversion Hi; subst info.
    destruct Hk as [(_ & ok & _ & Hs)|(Hd & _)]; [|discriminate].
    set (own := if ok then [pushed dst rel0 (info_of (DirNode nm m e ents))] else []) in *.
    assert (stack_of (DirNode nm m e ents) (dst ++ rel0) own) as Hown.
    { subst own. destruct ok; (split; [|intros x Hx]).
      - simpl. apply NoDup_singleton.
      - apply list_elem_of_singleton in Hx. subst x.
        exists [], (DirNode nm m e ents). simpl. by rewrite app_nil_r.
      - constructor.
      - by apply elem_of_nil in Hx. }
    destruct e as [msg|].
    { apply copyFunc_inv in H
        as [(msg' & _ & _ & Hs' & _)|[(info & ? & _)|(info & rel & ? & _)]]; try done.
      exists own. split; [congruence|exact Hown]. }
    simpl in Hwf. apply andb_true_iff in Hwf as [Hnd Hall].
    apply bool_decide_eq_true_1 in Hnd.
    assert (exists new, c_stack c' = c_stack c1 ++ new /\
              NoDup (map chmod_path new) /\
              forall x, x ∈ new -> exists ch rel n', ch ∈ ents /\
                chmod_path x = (dst ++ rel0) ++ node_name ch :: rel /\
                lookup_node ch rel = Some n' /\ chmod_mode x = node_mode n') as Hkids.
    { clear Hs Hown own Hi Hrel. revert c1 H.
      induction IH as [|ch ents Hch _ IHents]; intros c1 H; simpl in H.
      { inversion H; subst. exists []. split; [by rewrite app_nil_r|].
        split; [constructor|intros x Hx; by apply elem_of_nil in Hx]. }
      simpl in Hall. apply andb_true_iff in Hall as [Hwfch Hall].
      simpl in Hnd. apply NoDup_cons in Hnd as [Hfresh Hnd].
      run_inv H. destruct a as [r2 c2].
      rewrite <- app_assoc in Hm.
      destruct (Hch Hwfch _ _ _ _ Hm) as (new1 & Hs1 & Hnd1 & Hin1).
      assert (walk_entries (walk (copyFunc w st src dst)) (src ++ rel0) ents c2
              = Ret (r, c') \/ c' = c2) as [Hrest| ->].
      { destruct r2; [by left|]. destruct (node_isdir ch); [by left|].
        right. by inversion H. }
      - destruct (IHents Hnd Hall _ Hrest) as (new2 & Hs2 & Hnd2 & Hin2).
        exists (new1 ++ new2). split; [by rewrite Hs2, Hs1, <- app_assoc|]. split.
        + rewrite map_app. apply NoDup_app. split; [exact Hnd1|]. split; [|exact Hnd2].
          intros q [x1 [-> Hx1]]%list_elem_of_fmap [x2 [Heq Hx2]]%list_elem_of_fmap.
          destruct (Hin1 _ Hx1) as (rel1 & n1 & Hp1 & _).
          destruct (Hin2 _ Hx2) as (ch2 & rel2 & n2 & Hch2 & Hp2 & _).
          rewrite Hp1, Hp2, <- !app_assoc in Heq.
          do 2 apply app_inv_head in Heq. simpl in Heq. injection Heq as Hname _.
          apply Hfresh. rewrite Hname. apply list_elem_of_fmap. eauto.
        + intros x [Hx|Hx]%elem_of_app.
          * destruct (Hin1 _ Hx) as (rel1 & n1 & Hp1 & Hl1 & Hm1).
            exists ch, rel1, n1. split; [apply list_elem_of_here|].
            split; [|done]. rewrite Hp1. by rewrite <- !List.app_assoc.
          * destruct (Hin2 _ Hx) as (ch2 & rel2 & n2 & Hch2 & Hrest2).
            exists ch2, rel2, n2. split; [by apply list_elem_of_further|done].
      - exists new1. split; [exact Hs1|]. split; [exact Hnd1|].
        intros x Hx. destruct (Hin1 _ Hx) as (rel1 & n1 & Hp1 & Hl1 & Hm1).
        exists ch, rel1, n1. split; [apply list_elem_of_here|].
        split; [|done]. rewrite Hp1. by rewrite <- !List.app_assoc. }
    destruct Hkids as (new & Hs2 & Hnd2 & Hin2). destruct Hown as [Hnd1 Hin1].
    exists (own ++ new). split; [by rewrite Hs2, Hs, <- app_assoc|]. split.
    + rewrite map_app. apply NoDup_app. split; [exact Hnd1|]. split; [|exact Hnd2].
      intros q [x1 [-> Hx1]]%list_elem_of_fmap [x2 [Heq Hx2]]%list_elem_of_fmap.
      subst own. destruct ok; [|by apply elem_of_nil in Hx1].
      apply list_elem_of_singleton in Hx1. subst x1. simpl in Heq.
      destruct (Hin2 _ Hx2) as (ch2 & rel2 & n2 & _ & Hp2 & _).
      rewrite Hp2 in Heq. rewrite <- (app_nil_r (dst ++ rel0)) in Heq at 1.
      apply app_inv_head in Heq. discriminate Heq.
    + intros x [Hx|Hx]%elem_of_app; [by apply Hin1|].
      destruct (Hin2 _ Hx) as (ch2 & rel2 & n2 & Hch2 & Hp2 & Hl2 & Hm2).
      exists (node_name ch2 :: rel2), n2. split; [exact Hp2|]. split; [|exact Hm2].
      simpl. by rewrite (find_entry_distinct _ _ Hnd Hch2).
Qed.

Lemma find_entry_elem nm ents n : find_entry nm ents = Some n -> n ∈ ents.
Proof.
  induction ents as [|d ents IH]; simpl; [done|].
  destruct (String.eqb (node_name d) nm).
  - intros [= ->]. apply list_elem_of_here.
  - intros H. apply list_elem_of_further. by apply IH.
Qed.

Lemma distinct_names_lookup root p n :
  distinct_names root = true -> lookup_node root p = Some n -> distinct_names n = true.
Proof.
  revert root. induction p as [|c p IH]; simpl; intros root Hwf H; [by inversion H; subst|].
  destruct root as [|nm m e ents]; [done|].
  destruct (find_entry c ents) as [d|] eqn:Hf; [|done].
  apply (IH d); [|done].
  simpl in Hwf. apply andb_true_iff in Hwf as [_ Hall].
  rewrite forallb_forall in Hall. apply Hall, list_elem_of_In.
  by eapply find_entry_elem.
Qed.

Lemma Walk_copy_stack w st src dst c :
  distinct_names (fs w) = true ->
  Walk (fs w) (copyFunc w st src dst) src copying0 = Ret c ->
  NoDup (map chmod_path (c_stack c)) /\
  forall x, x ∈ c_stack c -> exists rel n,
    chmod_path x = dst ++ rel /\ lookup_node (fs w) (src ++ rel) = Some n /\
    chmod_mode x = node_mode n.
Proof.
  intros Hwf H. unfold Walk in H. destruct (lookup_node (fs w) src) as [n|] eqn:Hroot.
  - run_inv H. destruct a as [r c1]. inversion H; subst c1.
    rewrite <- (app_nil_r src) in Hm at 2.
    apply walk_copy_stack in Hm as (new & Hs & Hnd & Hin);
      [|by eapply distinct_names_lookup].
    simpl in Hs. subst new. rewrite app_nil_r in Hin. split; [exact Hnd|].
    intros x Hx. destruct (Hin _ Hx) as (rel & n' & Hp & Hl & Hmode).
    exists rel, n'. split; [done|]. split; [|done].
    by rewrite (lookup_node_app _ _ _ _ Hroot).
  - run_inv H. destruct a as [r c1]. inversion H; subst c1.
    apply copyFunc_inv in Hm
      as [(msg & _ & _ & Hs & _)|[(info & ? & _)|(info & rel & ? & _)]]; try done.
    rewrite Hs. simpl. split; [constructor|]. intros x Hx. by apply elem_of_nil in Hx.
Qed.

Lemma created_app evs1 evs2 : created (evs1 ++ evs2) = created evs1 ++ created evs2.
Proof. unfold created. apply omap_app. Qed.

(** The first pass changes no permission, and pushes the paths it creates
    in the order in which it creates them. *)
Lemma copyFunc_first_pass w st src dst c :
  Walk (fs w) (copyFunc w st src dst) src copying0 = Ret c ->
  (forall ev, ev ∈ c_trace c -> is_chmod ev = false) /\
  created (c_trace c) `sublist_of` map chmod_path (c_stack c).
Proof.
  intros H.
  apply (Walk_keeps (copyFunc w st src dst) (fun _ => True)
           (fun c => (forall ev, ev ∈ c_trace c -> is_chmod ev = false) /\
                     created (c_trace c) `sublist_of` map chmod_path (c_stack c)))
    with (fs := fs w) (root := src) (s := copying0); auto.
  - clear. intros p i e c r c' _ [Hc Hsub] Hstep.
    apply copyFunc_inv in Hstep
      as [(msg & _ & _ & Hs' & Ht')|[(info & _ & _ & -> & _)|(info & rel & _ & _ & _ & _ & _ & Hk)]].
    + rewrite Hs', Ht'. by split.
    + by split.
    + destruct Hk as [(_ & ok & Ht' & Hs')|(_ & Ht' & Hs')]; rewrite Ht', Hs'; split.
      * intros ev [Hin|Hin]%elem_of_app; [by apply Hc|].
        apply list_elem_of_singleton in Hin. by subst.
      * rewrite created_app, map_app. apply sublist_app; [exact Hsub|].
        destruct ok; simpl; reflexivity.
      * intros ev [Hin|Hin]%elem_of_app; [by apply Hc|].
        apply copyFile_events in Hin as [[ok ->]|[ok ->]]; reflexivity.
      * rewrite created_app, map_app. apply sublist_app; [exact Hsub|].
        unfold copyFile. simpl.
        destruct (osOpen w p); [apply sublist_nil_l|].
        destruct (osCreate w (dst ++ rel)); [reflexivity|].
        destruct (ioCopy w (dst ++ rel) p); reflexivity.
  - split; simpl; [intros ev Hin; by apply elem_of_nil in Hin|reflexivity].
Qed.

(** ** The permissions after the second pass *)

Lemma chmods_keep w todo m q :
  q ∉ map chmod_path todo ->
  foldl apply_event m (map (chmod_event w) todo) !! q = m !! q.
Proof.
  revert m. induction todo as [|x todo IH]; intros m Hq; simpl; [done|].
  apply not_elem_of_cons in Hq as [Hne Hq]. rewrite IH by done.
  destruct (bool_decide _); [|done]. by rewrite lookup_insert_ne.
Qed.

Lemma chmods_set w todo m x :
  NoDup (map chmod_path todo) ->
  (forall y, y ∈ todo -> osChmod w (chmod_path y) (chmod_mode y) = None) ->
  x ∈ todo ->
  foldl apply_event m (map (chmod_event w) todo) !! chmod_path x
  = Some (permBits (chmod_mode x)).
Proof.
  revert m. induction todo as [|y todo IH]; intros m Hnd Hok Hx;
    [by apply elem_of_nil in Hx|].
  simpl in Hnd. apply NoDup_cons in Hnd as [Hfresh Hnd]. simpl.
  rewrite bool_decide_eq_true_2 by (apply Hok, list_elem_of_here).
  apply elem_of_cons in Hx as [->|Hx].
  - rewrite chmods_keep by done. apply lookup_insert_eq.
  - apply IH; [done| |done]. intros z Hz. by apply Hok, list_elem_of_further.
Qed.

(** C7. copyDir runs in two passes. The first creates the directories and
    copies the files and changes no permission; the second is the chmod of
    every entry of the stack, from the last pushed to the first, and the
    stack holds the paths the first pass created in the order of their
    creation, each with the mode of the file or directory it was copied
    from. When no chmod fails, every path created by the first pass ends
    with the permission bits of its source, whatever those bits are. *)
Theorem copyDir_two_passes w st src dst errs evs :
  distinct_names (fs w) = true ->
  copyDir w st src dst = Ret (errs, evs) ->
  exists first stack,
    evs = first ++ map (chmod_event w) (rev stack) /\
    (forall ev, ev ∈ first -> is_chmod ev = false) /\
    created first `sublist_of` map chmod_path stack /\
    (forall x, x ∈ stack -> exists rel n,
        chmod_path x = dst ++ rel /\ lookup_node (fs w) (src ++ rel) = Some n /\
        chmod_mode x = node_mode n) /\
    ((forall x, x ∈ stack -> osChmod w (chmod_path x) (chmod_mode x) = None) ->
     forall m0 q, q ∈ created first -> exists rel n,
        q = dst ++ rel /\ lookup_node (fs w) (src ++ rel) = Some n /\
        foldl apply_event m0 evs !! q = Some (permBits (node_mode n))).
Proof.
  intros Hwf H. apply copyDir_inv in H as (c & Hw & ->).
  destruct (copyFunc_first_pass _ _ _ _ _ Hw) as [Hnc Hsub].
  destruct (Walk_copy_stack _ _ _ _ _ Hwf Hw) as [Hnd Hsrc].
  exists (c_trace c), (c_stack c). repeat split; try done.
  intros Hok m0 q Hq.
  assert (q ∈ map chmod_path (c_stack c)) as [x [-> Hx]]%list_elem_of_fmap
    by (eapply elem_of_sublist; eauto).
  destruct (Hsrc _ Hx) as (rel & n & Hp & Hl & Hmode).
  exists rel, n. split; [done|]. split; [done|].
  rewrite foldl_app, <- Hmode. apply chmods_set.
  - rewrite map_rev. apply NoDup_ListNoDup, List.NoDup_rev, NoDup_ListNoDup, Hnd.
  - intros y Hy. apply Hok.
    by rewrite list_elem_of_In, <- in_rev, <- list_elem_of_In in Hy.
  - by rewrite list_elem_of_In, <- in_rev, <- list_elem_of_In.
Qed.

Lemma copyDir_two_passes_witness :
  exists first stack,
    Examples.copyOfA = first ++ map (chmod_event Examples.acyclic) (rev stack) /\
    (forall ev, ev ∈ first -> is_chmod ev = false) /\
    created first `sublist_of` map chmod_path stack /\
    (forall x, x ∈ stack -> exists rel n,
        chmod_path x = Examples.dstA ++ rel /\
        lookup_node Examples.tree (Examples.dirA ++ rel) = Some n /\
        chmod_mode x = node_mode n) /\
    ((forall x, x ∈ stack ->
        osChmod Examples.acyclic (chmod_path x) (chmod_mode x) = None) ->
     forall m0 q, q ∈ created first -> exists rel n,
        q = Examples.dstA ++ rel /\
        lookup_node Examples.tree (Examples.dirA ++ rel) = Some n /\
        foldl apply_event m0 Examples.copyOfA !! q = Some (permBits (node_mode n))).
Proof.
  apply (copyDir_two_passes Examples.acyclic Examples.started Examples.dirA
           Examples.dstA [] Examples.copyOfA).
  - vm_compute. reflexivity.
  - vm_compute. reflexivity.
Defined.

(** In the example world the read-only file ro.txt (0444) and the
    directory sub (0700) of A end with those bits in the workspace. *)
Example permissions_of_the_copy_of_A :
  foldl apply_event ∅ Examples.copyOfA !! (Examples.dstA ++ ["ro.txt"]) = Some 292 /\
  foldl apply_event ∅ Examples.copyOfA !! (Examples.dstA ++ ["sub"]) = Some 448.
Proof. split; vm_compute; reflexivity. Qed.

(** ** Termination *)

Lemma copyDeps_ends call deps errs st (Q : state -> Prop) :
  (forall d st', d ∈ deps -> Q st' -> call d "" st' <> Timeout) ->
  (forall d st' e st'', Q st' -> call d "" st' = Ret (e, st'') -> Q st'') ->
  Q st -> copyDeps call deps errs st <> Timeout.
Proof.
  intros Hend Hkeep. revert errs st.
  induction deps as [|d deps IH]; intros errs st HQ H; simpl in H; [discriminate|].
  apply bind_Timeout_inv in H as [H|([e st1] & Hcall & H)].
  - eapply Hend; [apply list_elem_of_here|exact HQ|exact H].
  - eapply IH; [|eapply Hkeep; eauto|exact H].
    intros d' st' Hd'. apply Hend. by apply list_elem_of_further.
Qed.

Lemma copySubs_ends call ip subs errs st (Q : state -> Prop) :
  (forall s st', s ∈ subs -> Q st' ->
     call (arg_path s) (arg_newImportPath s) st' <> Timeout) ->
  (forall p n st' e st'', Q st' -> call p n st' = Ret (e, st'') -> Q st'') ->
  (forall line st', Q st' -> Q (verbosely line st')) ->
  Q st -> copySubs call ip subs errs st <> Timeout.
Proof.
  intros Hend Hkeep Hv. revert errs st.
  induction subs as [|s subs IH]; intros errs st HQ H; simpl in H; [discriminate|].
  apply bind_Timeout_inv in H as [H|([e st1] & Hcall & H)].
  - eapply Hend; [apply list_elem_of_here|apply Hv, HQ|exact H].
  - eapply IH; [|eapply Hkeep; [apply Hv, HQ|exact Hcall]|exact H].
    intros s' st' Hs'. apply Hend. by apply list_elem_of_further.
Qed.

Lemma budget_import universe rank bound p n d st st' :
  (rank d "" < rank p n)%nat -> extends st st' ->
  (budget universe rank bound d "" st' < budget universe rank bound p n st)%nat.
Proof.
  intros Hr Hx. unfold budget.
  assert (size (universe ∖ resolved st') <= size (universe ∖ resolved st))%nat as Hs.
  { apply subseteq_size, difference_mono_l, (ext_resolved _ _ Hx). }
  nia.
Qed.

Lemma budget_subpackage universe rank bound p n p' n' ip st st' :
  ip ∈ universe -> ip ∉ resolved st -> ip ∈ resolved st' ->
  resolved st ⊆ resolved st' -> (rank p' n' <= bound)%nat ->
  (budget universe rank bound p' n' st' < budget universe rank bound p n st)%nat.
Proof.
  intros Hu Hn Hin Hsub Hr. unfold budget.
  assert (size (universe ∖ resolved st') < size (universe ∖ resolved st))%nat as Hs.
  { apply subset_size. split; [by apply difference_mono_l|].
    intros Hback. specialize (Hback ip). rewrite !elem_of_difference in Hback.
    destruct (Hback (conj Hu Hn)) as [_ Hnot]. exact (Hnot Hin). }
  nia.
Qed.

(** C1, amended. In a finite graph of packages without a cycle among the
    imports, every call of copyPkg returns or panics: a budget above
    [budget] is never used up. An import is copied before its importer is
    resolved, so the rank pays for it; a subpackage is copied after its
    parent is resolved, so the resolved set pays for it. *)
Theorem copyPkg_terminates w wsp reach universe rank bound :
  acyclic_graph w wsp reach universe rank bound ->
  forall fuel path newImportPath st,
    reach path newImportPath -> workspace st = wsp ->
    (budget universe rank bound path newImportPath st < fuel)%nat ->
    copyPkg fuel w path newImportPath st <> Timeout.
Proof.
  intros graph.
  induction fuel as [|fuel IH]; intros p n st Hreach Hws Hfuel H; [lia|].
  rewrite copyPkg_unfold in H.
  apply bind_Timeout_inv in H as [H|([opkg err] & Hf & H)];
    [by eapply findPkg_not_Timeout|].
  destruct opkg as [pkg|]; [|discriminate].
  destruct (bool_decide _) eqn:Hgate; [discriminate|].
  apply bool_decide_eq_false_1 in Hgate.
  destruct (_ || _) eqn:Htest.
  { cbv zeta in H. destruct (getPackage _ _ _) as [[e|] ev]; discriminate. }
  destruct (Goroot pkg) eqn:Hg; [discriminate|]. simpl in H.
  apply orb_false_iff in Htest as [Herr Hname].
  destruct err as [e0|]; [discriminate Herr|]. apply String.eqb_neq in Hname.
  assert (copies w p n pkg) as Hcopies by done.
  apply bind_Timeout_inv in H as [H|([errs evs] & _ & H)];
    [by eapply copyDir_not_Timeout|].
  set (st2 := add_trace evs (verbosely _ st)) in H.
  assert (extends st st2) as Hx2.
  { eapply extends_trans; [apply extends_verbosely|apply extends_add_trace]. }
  apply bind_Timeout_inv in H as [H|([errs' st3] & Hdeps & H)].
  { revert H. apply (copyDeps_ends _ _ _ _ (extends st)); [| |exact Hx2].
    - intros d st' Hd Hx'.
      destruct (graph_imports _ _ _ _ _ _ graph p n pkg d Hreach Hcopies Hd) as [Hrd Hlt].
      apply IH; [exact Hrd|by rewrite (ext_workspace _ _ Hx')|].
      pose proof (budget_import universe rank bound p n d st st' Hlt Hx'). lia.
    - intros d st' e st'' Hx' Hcall.
      eapply extends_trans; [exact Hx'|]. by eapply copyPkg_extends. }
  assert (extends st st3) as Hx3.
  { eapply extends_trans; [exact Hx2|]. eapply copyDeps_extends; [|exact Hdeps].
    apply copyPkg_extends. }
  set (st4 := set_resolved _ st3) in H.
  assert (extends st st4) as Hx4.
  { eapply extends_trans; [exact Hx3|apply extends_set_resolved]. }
  destruct (recursive st3); [|discriminate].
  apply bind_Timeout_inv in H as [H|(subs & Hsubs & H)];
    [by eapply findSubPkgs_not_Timeout|].
  revert H. apply (copySubs_ends _ _ _ _ _ (extends st4)).
  - intros s st' Hs Hx'.
    assert (reach (arg_path s) (arg_newImportPath s)) as Hrs.
    { eapply (graph_subpackages _ _ _ _ _ _ graph p n pkg st4 subs s); eauto.
      by rewrite (ext_workspace _ _ Hx4). }
    apply IH; [exact Hrs| |].
    + by rewrite (ext_workspace _ _ Hx'), (ext_workspace _ _ Hx4).
    + assert (budget universe rank bound (arg_path s) (arg_newImportPath s) st'
              < budget universe rank bound p n st)%nat; [|lia].
      apply (budget_subpackage universe rank bound p n _ _ (ImportPath pkg)).
      * exact (graph_finite _ _ _ _ _ _ graph p n pkg Hreach Hcopies).
      * exact Hgate.
      * apply (ext_resolved _ _ Hx'). subst st4. simpl. set_solver.
      * pose proof (ext_resolved _ _ Hx4). pose proof (ext_resolved _ _ Hx'). set_solver.
      * exact (graph_bound _ _ _ _ _ _ graph _ _ Hrs).
  - intros p' n' st' e st'' Hx' Hcall.
    eapply extends_trans; [exact Hx'|]. by eapply copyPkg_extends.
  - intros line st' Hx'. eapply extends_trans; [exact Hx'|apply extends_verbosely].
  - apply extends_refl.
Qed.

(** The walks read the workspace and the -hidden flag, and no other
    variable. *)
Lemma findSubPkgs_workspace w st st' base ip :
  workspace st = workspace st' ->
  findSubPkgs w st base ip = findSubPkgs w st' base ip.
Proof. intros H. unfold findSubPkgs, subPkgFunc. by rewrite H. Qed.

Lemma copyDir_variables w st st' src dst :
  hidden st = hidden st' -> workspace st = workspace st' ->
  copyDir w st src dst = copyDir w st' src dst.
Proof. intros H1 H2. unfold copyDir, copyFunc. by rewrite H1, H2. Qed.

Lemma example_graph :
  acyclic_graph Examples.acyclic Examples.ws Examples.reach Examples.universe
    Examples.rank 3.
Proof.
  split.
  - intros p n pkg d Hr (Hf & _ & Hg) Hd. unfold Examples.reach, Examples.calls in *.
    repeat (apply elem_of_cons in Hr as [Hr|Hr]); try (by apply elem_of_nil in Hr);
      injection Hr as -> ->; vm_compute in Hf; injection Hf as <-;
      try discriminate Hg; simpl in Hd;
      repeat (apply elem_of_cons in Hd as [->|Hd]); try (by apply elem_of_nil in Hd);
      (split; [|vm_compute; lia]).
    all: repeat first [apply list_elem_of_here | apply list_elem_of_further].
  - intros p n pkg st subs s Hr (Hf & _ & Hg) Hws Hsubs Hs.
    rewrite (findSubPkgs_workspace _ st Examples.started) in Hsubs by exact Hws.
    unfold Examples.reach, Examples.calls in *.
    repeat (apply elem_of_cons in Hr as [Hr|Hr]); try (by apply elem_of_nil in Hr);
      injection Hr as -> ->; vm_compute in Hf; injection Hf as <-;
      try discriminate Hg; vm_compute in Hsubs; injection Hsubs as <-;
      repeat (apply elem_of_cons in Hs as [->|Hs]); try (by apply elem_of_nil in Hs).
    simpl. repeat first [apply list_elem_of_here | apply list_elem_of_further].
  - intros p n pkg Hr (Hf & _ & Hg). unfold Examples.reach, Examples.calls in *.
    repeat (apply elem_of_cons in Hr as [Hr|Hr]); try (by apply elem_of_nil in Hr);
      injection Hr as -> ->; vm_compute in Hf; injection Hf as <-;
      try discriminate Hg; simpl; unfold Examples.universe; set_solver.
  - intros p n Hr. unfold Examples.reach, Examples.calls in *.
    repeat (apply elem_of_cons in Hr as [Hr|Hr]); try (by apply elem_of_nil in Hr);
      injection Hr as -> ->; vm_compute; lia.
Qed.

Lemma copyPkg_terminates_witness :
  copyPkg 15 Examples.acyclic "A" "" Examples.started <> Timeout.
Proof.
  apply (copyPkg_terminates Examples.acyclic Examples.ws Examples.reach
           Examples.universe Examples.rank 3 example_graph 15 "A" "" Examples.started).
  - apply list_elem_of_here.
  - reflexivity.
  - vm_compute. lia.
Defined.

(** ** Packages that import each other *)

Lemma unresolved_AB_copying line evs st :
  unresolved_AB st -> unresolved_AB (add_trace evs (verbosely line st)).
Proof.
  intros (Hh & Hw & HA & HB). unfold unresolved_AB, verbosely.
  by destruct (verbose st).
Qed.

(** A call that copies a package, then calls copyPkg for its first import,
    times out when that call does. *)
Lemma copyPkg_first_import_Timeout fuel w path newImportPath st pkg d rest errs evs :
  findPkg w path newImportPath = Ret (Some pkg, None) ->
  Name pkg <> "" -> Goroot pkg = false -> ImportPath pkg ∉ resolved st ->
  Imports pkg = d :: rest ->
  (forall line, copyDir w (verbosely line st) (Dir pkg)
                  (Join (workspace st) ["src"; ImportPath pkg]) = Ret (errs, evs)) ->
  (forall line, copyPkg fuel w d "" (add_trace evs (verbosely line st)) = Timeout) ->
  copyPkg (S fuel) w path newImportPath st = Timeout.
Proof.
  intros Hf Hn Hg Hin Hi Hcopy Hdep. rewrite copyPkg_unfold, Hf. simpl.
  rewrite bool_decide_eq_false_2 by done.
  apply String.eqb_neq in Hn. rewrite Hn, Hg. simpl.
  assert (workspace (verbosely ("Copying " +:+ ImportPath pkg +:+ " from "
            +:+ quoted (render (Dir pkg)) +:+ ".") st) = workspace st) as ->
    by (unfold verbosely; destruct (verbose st); reflexivity).
  rewrite Hcopy. simpl. rewrite Hi. simpl. by rewrite Hdep.
Qed.

Lemma cyclic_imports_time_out fuel : forall st,
  unresolved_AB st ->
  copyPkg fuel Examples.cyclic "A" "" st = Timeout /\
  copyPkg fuel Examples.cyclic "B" "" st = Timeout.
Proof.
  induction fuel as [|fuel IH]; intros st Hst; [by split|].
  pose proof Hst as (Hh & Hw & HA & HB). split.
  - eapply (copyPkg_first_import_Timeout fuel Examples.cyclic "A" "" st Examples.pkgA);
      try reflexivity; try done.
    + intros line. rewrite (copyDir_variables _ _ Examples.started), Hw.
      * vm_compute. reflexivity.
      * unfold verbosely. destruct (verbose st); simpl; by rewrite Hh.
      * unfold verbosely. destruct (verbose st); simpl; by rewrite Hw.
    + intros line. by apply IH, unresolved_AB_copying.
  - eapply (copyPkg_first_import_Timeout fuel Examples.cyclic "B" "" st
              {| ImportPath := "B"; Name := "b"; Dir := Examples.dirB;
                 Goroot := false; Imports := ["A"] |});
      try reflexivity; try done.
    + intros line. rewrite (copyDir_variables _ _ Examples.started), Hw.
      * vm_compute. reflexivity.
      * unfold verbosely. destruct (verbose st); simpl; by rewrite Hh.
      * unfold verbosely. destruct (verbose st); simpl; by rewrite Hw.
    + intros line. by apply IH, unresolved_AB_copying.
Qed.

(** C1, counterexample. In [cyclic] the graph has the two packages A and
    B, A imports B and B imports A; neither is put in [resolved] before
    its imports have been copied, and copyPkg("A", "") returns within no
    budget. *)
Lemma cyclic_imports_never_return :
  ~ terminates Examples.cyclic "A" "" Examples.started.
Proof.
  intros [fuel H]. apply H.
  apply cyclic_imports_time_out.
  repeat split; try reflexivity; simpl; apply not_elem_of_empty.
Qed.

(** ** Further behaviour of copyPkg in the example worlds *)

(** When filepath.Abs fails findPkg returns a nil package with its error,
    and copyPkg panics on pkg.ImportPath before it reaches any branch. *)
Example copyPkg_nil_package_panics :
  findPkg Examples.acyclic "./gone" "" =
    Ret (None, Some (fmtErr ("Couldn't get an absolute path for " +:+ quoted "" +:+ ".")
                            "getwd: no such file or directory")) /\
  copyPkg 1 Examples.acyclic "./gone" "" Examples.started = Panic "nil pointer dereference".
Proof. split; reflexivity. Qed.

(** An import path may be copied twice within one call: x/y is copied,
    then its import x, then x/y again as a subpackage of x, because x/y is
    put in [resolved] only after its imports. *)
Example copyPkg_copies_a_package_twice :
  exists errs st',
    copyPkg 4 Examples.worldXY "x/y" "" Examples.startedXY = Ret (errs, st') /\
    stdout st' =
      [ "Copying x/y from " +:+ quoted "/go/src/x/y" +:+ ".";
        "Copying x from " +:+ quoted "/go/src/x" +:+ ".";
        "x has the subpackage x/y.";
        "Copying x/y from " +:+ quoted "/go/src/x/y" +:+ ".";
        "Already copied x." ].
Proof. eexists _, _. split; vm_compute; reflexivity. Qed.

(** findSubPkgs does not test its own root against the workspace: a walk
    that starts at the workspace itself goes into it. *)
Example findSubPkgs_from_the_workspace :
  visits Examples.tree
    (subPkgFunc Examples.acyclic Examples.started Examples.ws "A/ws") Examples.ws []
  = Some [ Examples.ws; Examples.ws ++ ["src"]; Examples.ws ++ ["src"; "old.go"] ].
Proof. vm_compute. reflexivity. Qed.

(** * Further properties of the program *)

(** ** parseImport *)

Lemma split_colon_empty s :
  fst (split_colon s) = "" <-> s = "" \/ exists rest, s = String ":"%char rest.
Proof.
  destruct s as [|c rest]; simpl; [by split; auto|].
  destruct (Ascii.eqb c ":"%char) eqn:Hc.
  - apply Ascii.eqb_eq in Hc. subst. simpl. split; eauto.
  - destruct (split_colon rest) as [a b]. simpl. split; [discriminate|].
    intros [H|[r H]]; [discriminate H|]. injection H as Hc' _. subst c.
    by rewrite Ascii.eqb_refl in Hc.
Qed.

Lemma split_colon_join s :
  s = match snd (split_colon s) with
      | Some d => fst (split_colon s) +:+ ":" +:+ d
      | None => fst (split_colon s)
      end.
Proof.
  induction s as [|c rest IH]; simpl; [done|].
  destruct (Ascii.eqb c ":"%char) eqn:Hc.
  - apply Ascii.eqb_eq in Hc. by subst.
  - destruct (split_colon rest) as [a [d|]]; simpl in *; by rewrite IH at 1.
Qed.

Lemma split_colon_no_colon s : has_colon (fst (split_colon s)) = false.
Proof.
  induction s as [|c rest IH]; simpl; [done|].
  destruct (Ascii.eqb c ":"%char) eqn:Hc; [done|].
  destruct (split_colon rest) as [a b]. simpl in *. by rewrite Hc, IH.
Qed.

Lemma IsAbs_render p : IsAbs (render p) = true.
Proof. reflexivity. Qed.

(** X1. parseImport returns a syntax error exactly for an argument that is
    empty or starts with a colon. When it returns no error the import path
    is not empty, holds no colon and is the argument up to its first colon,
    and the directory is empty or absolute; with any error the directory
    is empty. *)
Theorem parseImport_outcomes w s :
  let '(importPath, dir, err) := parseImport w s in
  ((exists e, err = Some e /\ is_syntaxErr e = true) <->
     (s = "" \/ exists rest, s = String ":"%char rest)) /\
  (err = None ->
     importPath <> "" /\ has_colon importPath = false /\
     (s = importPath \/ exists d, s = importPath +:+ ":" +:+ d) /\
     (dir = "" \/ IsAbs dir = true)) /\
  (err <> None -> dir = "").
Proof.
  unfold parseImport.
  pose proof (split_colon_empty s) as Hempty.
  pose proof (split_colon_join s) as Hjoin.
  pose proof (split_colon_no_colon s) as Hcolon.
  destruct (split_colon s) as [first second]. simpl in *.
  destruct (String.eqb first "") eqn:Hfirst.
  { apply String.eqb_eq in Hfirst. repeat split; try done.
    - intros _. by apply Hempty.
    - intros _. eauto. }
  apply String.eqb_neq in Hfirst.
  assert (~ (s = "" \/ exists rest, s = String ":"%char rest)) as Hns
    by (intros H; by apply Hfirst, Hempty).
  assert (s = first \/ exists d, s = first +:+ ":" +:+ d) as Hs
    by (destruct second; eauto).
  destruct second as [d|]; [|repeat split; try done; auto; by intros (e & [=] & _)].
  destruct (nonempty d); [|repeat split; try done; auto; by intros (e & [=] & _)].
  destruct (osStat w d) as [e|].
  { repeat split; try done. by intros (e' & [= <-] & He). }
  destruct (filepathAbs w d) as [p|e].
  - repeat split; try done; auto. by intros (e' & [=] & _).
  - repeat split; try done. by intros (e' & [= <-] & He).
Qed.

(** ** createWorkspace *)


(** ** checkError *)

(** X3. Only the first error that is not nil counts, whatever follows it
    in the list: a fatal call exits with status 2 for a syntax error and 1
    for any other error; a call that is not fatal prints the error (with
    the usage text for a syntax error), sets the exit code to 3 unless the
    error is a syntax error, and returns true; without an error checkError
    returns false and changes nothing. *)
Theorem checkError_first_error fatal errs st :
  checkError fatal errs st =
  match first_error errs with
  | None => Ret (false, st)
  | Some e =>
      if fatal then Exit (if is_syntaxErr e then 2 else 1)%Z
      else if is_syntaxErr e then Ret (true, eprint usage (eprint (reported e) st))
      else Ret (true, set_exitCode 3 (eprint (reported e) st))
  end.
Proof.
  induction errs as [|[e|] errs IH]; simpl; [done| |exact IH].
  destruct e; by destruct fatal.
Qed.

(** ** findPkg *)

Lemma import_found_inv w path srcDir newImportPath :
  exists pkg err,
    import_found w path srcDir newImportPath = Ret (Some pkg, err) /\
    (newImportPath <> "" -> ImportPath pkg = newImportPath) /\
    (forall e, err = Some e -> is_fmtErr e = true) /\
    (err = None <-> snd (buildImport w path srcDir) = None) /\
    Dir pkg = Dir (fst (buildImport w path srcDir)).
Proof.
  unfold import_found. destruct (buildImport w path srcDir) as [pkg err]. simpl.
  assert (forall pkg', (newImportPath <> "" ->
            ImportPath (if nonempty newImportPath
                        then set_ImportPath newImportPath pkg' else pkg') = newImportPath))
    as Hip.
  { intros pkg' Hn. unfold nonempty. apply String.eqb_neq in Hn. by rewrite Hn. }
  assert (Dir (if nonempty newImportPath then set_ImportPath newImportPath pkg else pkg)
          = Dir pkg) as Hdir by (by destruct (nonempty newImportPath)).
  destruct err as [e|]; eexists _, _; (split; [reflexivity|]); repeat split; auto; try done.
  by intros e' [= <-].
Qed.

(** X4. A package returned by findPkg under a new import path has that
    import path, whether go/build found the package or not. *)
Theorem findPkg_new_import_path w path newImportPath pkg err :
  findPkg w path newImportPath = Ret (Some pkg, err) ->
  newImportPath <> "" ->
  ImportPath pkg = newImportPath.
Proof.
  intros H Hn. unfold findPkg in H. run_inv H.
  assert (forall p s, import_found w p s newImportPath = Ret (Some pkg, err) ->
            ImportPath pkg = newImportPath) as Hfound.
  { intros p s Hi. destruct (import_found_inv w p s newImportPath)
      as (pkg' & err' & Heq & Hip & _).
    rewrite Heq in Hi. injection Hi as <- _. by apply Hip. }
  destruct a; [|by eapply Hfound].
  destruct (negb (IsAbs path)); [|by eapply Hfound].
  destruct (filepathAbs w path); [by eapply Hfound|discriminate].
Qed.

Lemma findPkg_new_import_path_witness :
  ImportPath (set_ImportPath "any string"
                (fst (Examples.lookup ["fmt"] "." "/go/src/A/sub"))) = "any string".
Proof.
  apply (findPkg_new_import_path Examples.acyclic "/go/src/A/sub" "any string" _ None).
  - reflexivity.
  - discriminate.
Defined.

(** X5. findPkg panics on the empty path, indexing its first byte. On any
    other path it returns; its error, if any, is a fmtErr; without an error
    it returns a package; and it returns no package only for a local import
    path whose absolute path cannot be determined. *)
Theorem findPkg_outcomes w path newImportPath :
  (path = "" -> findPkg w path newImportPath = Panic "index out of range") /\
  (path <> "" ->
   exists opkg err,
     findPkg w path newImportPath = Ret (opkg, err) /\
     (err = None -> exists pkg, opkg = Some pkg) /\
     (forall e, err = Some e -> is_fmtErr e = true) /\
     (opkg = None ->
        IsLocalImport path = true /\ exists e, filepathAbs w path = inr e)).
Proof.
  split; [by intros ->|]. intros Hp. unfold findPkg.
  assert (forall p s, exists opkg err,
            import_found w p s newImportPath = Ret (opkg, err) /\
            (err = None -> exists pkg, opkg = Some pkg) /\
            (forall e, err = Some e -> is_fmtErr e = true) /\
            (opkg = None ->
               IsLocalImport path = true /\ exists e, filepathAbs w path = inr e))
    as Hfound.
  { intros p s. destruct (import_found_inv w p s newImportPath)
      as (pkg & err & Heq & _ & Hfmt & _).
    exists (Some pkg), err. repeat split; eauto; discriminate. }
  destruct (IsLocalImport path) eqn:Hl; simpl.
  - assert (IsAbs path = false) as ->.
    { destruct path as [|c rest]; [done|]. simpl.
      destruct (Ascii.eqb c "/"%char) eqn:Hc; [|done].
      apply Ascii.eqb_eq in Hc. subst. discriminate Hl. }
    simpl. destruct (filepathAbs w path) as [p|e] eqn:Habs; [apply Hfound|].
    eexists _, _. split; [reflexivity|]. repeat split; eauto; try done.
    by intros e' [= <-].
  - destruct path as [|c rest]; [done|]. simpl.
    destruct (Ascii.eqb c "/"%char); simpl; apply Hfound.
Qed.

Lemma findPkg_render w p newImportPath :
  findPkg w (render p) newImportPath = import_found w "." (render p) newImportPath.
Proof. reflexivity. Qed.

(** ** The walks return *)


Lemma every_info_lookup good root p n :
  every_info good root = true -> lookup_node root p = Some n -> every_info good n = true.
Proof.
  revert root. induction p as [|c p IH]; simpl; intros root Hwf H; [by inversion H; subst|].
  destruct root as [|nm m e ents]; [done|].
  destruct (find_entry c ents) as [d|] eqn:Hf; [|done].
  apply (IH d); [|done].
  simpl in Hwf. apply andb_true_iff in Hwf as [_ Hall].
  rewrite forallb_forall in Hall. apply Hall, list_elem_of_In.
  by eapply find_entry_elem.
Qed.

(** A walk returns when its callback returns on every path below the root
    and every file of the tree that [good] accepts. *)
Lemma walk_returns {S} (fn : WalkFunc S) (good : FileInfo -> bool) (root : Path) n :
  (forall rel i e s, good i = true -> exists r s', fn (root ++ rel) (Some i) e s = Ret (r, s')) ->
  every_info good n = true ->
  forall rel s, exists r s', walk fn n (root ++ rel) s = Ret (r, s').
Proof.
  intros Hfn.
  induction n as [nm m|nm m e ents IH] using node_nested_ind; intros Hgood rel s;
    rewrite walk_unfold; simpl in Hgood; apply andb_true_iff in Hgood as [Hi Hall];
    destruct (Hfn rel _ None s Hi) as (r1 & s1 & ->); simpl.
  - destruct r1; eauto.
  - destruct r1; [|eauto]. destruct e as [msg|]; [by apply Hfn|].
    clear Hi. revert s1. induction IH as [|c ents Hc _ IHents]; intros s1; simpl; [eauto|].
    simpl in Hall. apply andb_true_iff in Hall as [Hgc Hall].
    destruct (Hc Hgc (rel ++ [node_name c]) s1) as (r2 & s2 & Hw).
    rewrite <- app_assoc, Hw. simpl.
    destruct r2; [by apply IHents|]. destruct (node_isdir c); [by apply IHents|eauto].
Qed.

Lemma Walk_returns {S} (fn : WalkFunc S) (good : FileInfo -> bool) fs root s :
  (forall rel i e s, good i = true -> exists r s', fn (root ++ rel) (Some i) e s = Ret (r, s')) ->
  (forall e s, exists r s', fn root None (Some e) s = Ret (r, s')) ->
  every_info good fs = true ->
  exists s', Walk fs fn root s = Ret s'.
Proof.
  intros Hfn Hroot Hgood. unfold Walk.
  destruct (lookup_node fs root) as [n|] eqn:Hl.
  - destruct (walk_returns fn good root n Hfn (every_info_lookup _ _ _ _ Hgood Hl) [] s)
      as (r & s' & Hw).
    rewrite app_nil_r in Hw. rewrite Hw. simpl. eauto.
  - destruct (Hroot (lstat_error root) s) as (r & s' & ->). simpl. eauto.
Qed.


(** ** What findSubPkgs returns *)

Lemma Rel_inv base p rel : Rel base p = Some rel -> p = base ++ rel.
Proof.
  revert p. induction base as [|b base IH]; intros p H; simpl in H; [by inversion H|].
  destruct p as [|t p]; [done|].
  destruct (String.eqb b t) eqn:Hb; [|done].
  apply String.eqb_eq in Hb. subst. simpl. f_equal. by apply IH.
Qed.

Lemma append_nonempty a c b : a +:+ String c b <> "".
Proof. by destruct a. Qed.

(** X7. Every entry findSubPkgs returns stands for a directory strictly
    below the base directory, other than the workspace, that go/build
    accepts as a package: its import path is the base import path, a
    slash, and the path of the directory relative to the base, and its
    path is the directory go/build reports. *)
Theorem findSubPkgs_entries w st basePath baseImportPath subs :
  findSubPkgs w st basePath baseImportPath = Ret subs ->
  forall a, a ∈ subs ->
    exists rel,
      rel <> [] /\ basePath ++ rel <> workspace st /\
      arg_newImportPath a = baseImportPath +:+ "/" +:+ ToSlash rel /\
      snd (buildImport w "." (render (basePath ++ rel))) = None /\
      arg_path a = render (Dir (fst (buildImport w "." (render (basePath ++ rel))))).
Proof.
  intros H. unfold findSubPkgs in H.
  apply (Walk_keeps (subPkgFunc w st basePath baseImportPath) (fun _ => True)
           (fun ret => forall a, a ∈ ret -> exists rel,
              rel <> [] /\ basePath ++ rel <> workspace st /\
              arg_newImportPath a = baseImportPath +:+ "/" +:+ ToSlash rel /\
              snd (buildImport w "." (render (basePath ++ rel))) = None /\
              arg_path a = render (Dir (fst (buildImport w "." (render (basePath ++ rel)))))))
    with (fs := fs w) (root := basePath) (s := []); auto.
  - clear. intros p i e ret r ret' _ Hret Hstep. unfold subPkgFunc, path_eqb in Hstep.
    case_bool_decide as Hp; [by inversion Hstep; subst|].
    destruct i as [info|]; [|discriminate].
    destruct (fi_isdir info); [|by inversion Hstep; subst].
    case_bool_decide as Hws; [by inversion Hstep; subst|].
    destruct (Rel basePath p) as [rel|] eqn:Hrel; [|by inversion Hstep; subst].
    apply Rel_inv in Hrel. subst p. rewrite findPkg_render in Hstep.
    destruct (import_found_inv w "." (render (basePath ++ rel))
                (baseImportPath +:+ "/" +:+ ToSlash rel))
      as (pkg & err & Heq & Hip & _ & Herr & Hdir).
    rewrite Heq in Hstep. simpl in Hstep.
    destruct err; [by inversion Hstep; subst|].
    inversion Hstep; subst. intros a [Ha|Ha]%elem_of_app; [by apply Hret|].
    apply list_elem_of_singleton in Ha. subst a. simpl. exists rel.
    split; [intros ->; by rewrite app_nil_r in Hp|]. split; [done|].
    split; [apply Hip, append_nonempty|]. split; [by apply Herr|]. by rewrite Hdir.
  - intros a Ha. by apply elem_of_nil in Ha.
Qed.

Lemma findSubPkgs_entries_witness :
  exists rel,
    rel <> [] /\ Examples.dirA ++ rel <> Examples.ws /\
    "A/sub" = "A" +:+ "/" +:+ ToSlash rel /\
    snd (Examples.lookup ["fmt"] "." (render (Examples.dirA ++ rel))) = None /\
    "/go/src/A/sub" =
      render (Dir (fst (Examples.lookup ["fmt"] "." (render (Examples.dirA ++ rel))))).
Proof.
  apply (findSubPkgs_entries Examples.acyclic Examples.started Examples.dirA "A"
           [{| arg_path := "/go/src/A/sub"; arg_newImportPath := "A/sub" |}])
    with (a := {| arg_path := "/go/src/A/sub"; arg_newImportPath := "A/sub" |}).
  - vm_compute. reflexivity.
  - apply list_elem_of_here.
Defined.

(** ** copyDir returns *)

(** X8. In a tree without empty names copyDir never panics, whatever the
    source and the destination: the walk hands copyFunc only paths below
    the source, so filepath.Rel cannot fail, and the first byte of a name
    always exists. *)
Theorem copyDir_returns w st src dst :
  names_nonempty (fs w) = true ->
  exists errs evs, copyDir w st src dst = Ret (errs, evs).
Proof.
  intros Hnames. unfold copyDir.
  destruct (Walk_returns (copyFunc w st src dst) (fun i => nonempty (fi_name i))
              (fs w) src copying0) as (c & Hc); [| |exact Hnames|].
  - intros rel i e c Hi. unfold copyFunc. destruct e; [eauto|].
    assert (exists dot,
              (if hidden st then Ret false
               else match fi_name i with
                    | EmptyString => Panic "index out of range"
                    | String ch _ => Ret (Ascii.eqb ch "."%char)
                    end) = Ret dot) as [dot ->].
    { destruct (hidden st); [eauto|]. destruct (fi_name i); [done|eauto]. }
    simpl. destruct dot; [destruct (fi_isdir i); eauto|].
    destruct (path_eqb _ _); [eauto|]. rewrite Rel_app.
    destruct (fi_isdir i).
    + destruct (osMkdirAll w (dst ++ rel) dirPerm); eauto.
    + destruct (copyFile w (src ++ rel) (dst ++ rel)); eauto.
  - intros e c. unfold copyFunc. eauto.
  - unfold copying0 in Hc. rewrite Hc. simpl.
    destruct (chmodAll w _ _ _) as [errs evs]. eauto.
Qed.

Lemma copyDir_returns_witness :
  exists errs evs,
    copyDir Examples.acyclic Examples.started Examples.dirA Examples.dstA = Ret (errs, evs).
Proof.
  apply (copyDir_returns Examples.acyclic Examples.started Examples.dirA Examples.dstA).
  vm_compute. reflexivity.
Defined.

(** ** Hidden files *)

Lemma copyFunc_dotted w st src dst p info c r c' :
  hidden st = false -> dotted (fi_name info) = true ->
  copyFunc w st src dst p (Some info) None c = Ret (r, c') ->
  c' = c /\ (fi_isdir info = true -> r = WSkipDir).
Proof.
  intros Hh Hd H. unfold copyFunc in H. rewrite Hh in H.
  destruct (fi_name info) as [|ch rest]; [discriminate|]. simpl in Hd, H.
  rewrite Hd in H. destruct (fi_isdir info); inversion H; by subst.
Qed.

Lemma copyFunc_targets w st src dst rel0 i e c r c' :
  copyFunc w st src dst (src ++ rel0) i e c = Ret (r, c') ->
  forall q, target c' q -> target c q \/ q = dst ++ rel0.
Proof.
  intros H q Hq.
  apply copyFunc_inv in H
    as [(msg & _ & _ & Hs & Ht)|[(info & _ & _ & -> & _)|
        (info & rel & _ & _ & _ & _ & Hrel & Hk)]].
  - left. unfold target in *. by rewrite <- Hs, <- Ht.
  - by left.
  - rewrite Rel_app in Hrel. injection Hrel as <-.
    destruct Hk as [(_ & ok & Ht & Hs)|(_ & Ht & Hs)];
      destruct Hq as [(ev & Hev & Hw)|(x & Hx & Hp)].
    + rewrite Ht in Hev. apply elem_of_app in Hev as [Hev|Hev]; [left; left; eauto|].
      apply list_elem_of_singleton in Hev. subst ev. right. by inversion Hw.
    + rewrite Hs in Hx. apply elem_of_app in Hx as [Hx|Hx]; [left; right; eauto|].
      destruct ok; [|by apply elem_of_nil in Hx].
      apply list_elem_of_singleton in Hx. subst x. by right.
    + rewrite Ht in Hev. apply elem_of_app in Hev as [Hev|Hev]; [left; left; eauto|].
      apply copyFile_events in Hev as [[ok ->]|[ok ->]]; right; by inversion Hw.
    + rewrite Hs in Hx. apply elem_of_app in Hx as [Hx|Hx]; [left; right; eauto|].
      apply list_elem_of_singleton in Hx. subst x. by right.
Qed.

Lemma walk_copy_targets w st src dst n :
  hidden st = false ->
  forall rel0 c r c',
    walk (copyFunc w st src dst) n (src ++ rel0) c = Ret (r, c') ->
    forall q, target c' q ->
      target c q \/
      (dotted (node_name n) = false /\
       exists rel, q = (dst ++ rel0) ++ rel /\ Forall (fun nm => dotted nm = false) rel).
Proof.
  intros Hh.
  induction n as [nm m|nm m e ents IH] using node_nested_ind;
    intros rel0 c r c' H q Hq; rewrite walk_unfold in H; run_inv H;
    destruct a as [r1 c1].
  - (* a file *)
    cbn [node_name].
    assert (c' = c1) as -> by (destruct r1; by inversion H).
    destruct (dotted nm) eqn:Hd.
    + apply copyFunc_dotted in Hm as [-> _]; auto.
    + destruct (copyFunc_targets _ _ _ _ _ _ _ _ _ _ Hm q Hq) as [Ht| ->]; [by left|].
      right. split; [done|]. exists []. by rewrite app_nil_r.
  - (* a directory *)
    cbn [node_name].
    destruct (dotted nm) eqn:Hd.
    { apply copyFunc_dotted in Hm as [-> Hr]; auto.
      rewrite (Hr eq_refl) in H. simpl in H. inversion H; subst. by left. }
    assert (forall q, target c1 q ->
              target c q \/
              (false = false /\
               exists rel, q = (dst ++ rel0) ++ rel /\
                           Forall (fun nm => dotted nm = false) rel)) as Hown.
    { intros q' Hq'.
      destruct (copyFunc_targets _ _ _ _ _ _ _ _ _ _ Hm q' Hq') as [Ht| ->]; [by left|].
      right. split; [done|]. exists []. by rewrite app_nil_r. }
    destruct r1; [|simpl in H; inversion H; subst; by apply Hown].
    destruct e as [msg|].
    { destruct (copyFunc_targets _ _ _ _ _ _ _ _ _ _ H q Hq) as [Ht| ->]; [by apply Hown|].
      right. split; [done|]. exists []. by rewrite app_nil_r. }
    assert (target c1 q \/
            exists rel, q = (dst ++ rel0) ++ rel /\
                        Forall (fun nm => dotted nm = false) rel) as [Ht|Hnew];
      [|by apply Hown|by right].
    clear Hm Hown. revert c1 H.
    induction IH as [|ch ents Hch _ IHents]; intros c1 H; simpl in H.
    { inversion H; subst. by left. }
    run_inv H. destruct a as [r2 c2]. rewrite <- app_assoc in Hm.
    assert (target c2 q \/
            exists rel, q = (dst ++ rel0) ++ rel /\
                        Forall (fun nm => dotted nm = false) rel) as [Ht|Hnew];
      [|clear H|by right].
    { destruct r2; [by eapply IHents|].
      destruct (node_isdir ch); [by eapply IHents|]. inversion H; subst. by left. }
    destruct (Hch _ _ _ _ Hm q Ht) as [Hc1|(Hdot & rel & -> & Hrel)]; [by left|].
    right. exists (node_name ch :: rel). split; [by rewrite <- !List.app_assoc|].
    by constructor.
Qed.

(** X9. Without -hidden, copyDir creates, writes and chmods nothing at a
    destination path that has, below the destination, a component starting
    with a dot: hidden files and all that hidden directories hold are left
    out of the copy. *)
Theorem copyDir_leaves_hidden_out w st src dst errs evs :
  hidden st = false ->
  copyDir w st src dst = Ret (errs, evs) ->
  forall ev q, ev ∈ evs -> written ev = Some q ->
    exists rel, q = dst ++ rel /\ Forall (fun nm => dotted nm = false) rel.
Proof.
  intros Hh H ev q Hev Hw. apply copyDir_inv in H as (c & Hwalk & ->).
  assert (target c q) as Ht.
  { apply elem_of_app in Hev as [Hev|Hev]; [left; eauto|].
    apply list_elem_of_fmap in Hev as (x & -> & Hx). right. exists x.
    split; [|by inversion Hw].
    by rewrite list_elem_of_In, <- in_rev, <- list_elem_of_In in Hx. }
  assert (forall q', ~ target copying0 q') as Hnone.
  { intros q' [(ev' & Hin & _)|(x & Hin & _)]; by apply elem_of_nil in Hin. }
  unfold Walk in Hwalk. destruct (lookup_node (fs w) src) as [n|].
  - run_inv Hwalk. destruct a as [r c1]. inversion Hwalk; subst c1.
    rewrite <- (app_nil_r src) in Hm at 2.
    destruct (walk_copy_targets _ _ _ _ _ Hh _ _ _ _ Hm q Ht)
      as [Hc|(_ & rel & -> & Hrel)]; [by apply Hnone in Hc|].
    exists rel. by rewrite app_nil_r.
  - run_inv Hwalk. destruct a as [r c1]. inversion Hwalk; subst c1.
    rewrite <- (app_nil_r src) in Hm at 2.
    destruct (copyFunc_targets _ _ _ _ _ _ _ _ _ _ Hm q Ht) as [Hc| ->];
      [by apply Hnone in Hc|].
    exists []. by rewrite !app_nil_r.
Qed.

Lemma copyDir_leaves_hidden_out_witness :
  exists rel, Examples.dstA ++ ["sub"; "s.go"] = Examples.dstA ++ rel /\
              Forall (fun nm => dotted nm = false) rel.
Proof.
  apply (copyDir_leaves_hidden_out Examples.acyclic Examples.started Examples.dirA
           Examples.dstA [] Examples.copyOfA)
    with (ev := EvCreate (Examples.dstA ++ ["sub"; "s.go"]) true).
  - reflexivity.
  - vm_compute. reflexivity.
  - do 6 apply list_elem_of_further. apply list_elem_of_here.
  - reflexivity.
Defined.

(** ** What a call of copyPkg may do *)

(** A relation between the variables before a call, the errors returned
    and the variables after it holds of every call of copyPkg that returns
    when it holds of the steps copyPkg is made of and of their sequence. *)
Section Effects.
Context (w : World) (R : state -> list error -> state -> Prop).
Hypothesis R_refl : forall st, R st [] st.
Hypothesis R_trans : forall st1 e1 st2 e2 st3,
  R st1 e1 st2 -> R st2 e2 st3 -> R st1 (e1 ++ e2) st3.
Hypothesis R_print : forall line st, R st [] (verbosely line st).
Hypothesis R_mark : forall ip st, R st [] (set_resolved (union {[ip]}) st).
Hypothesis R_copy : forall st src dst errs evs,
  copyDir w st src dst = Ret (errs, evs) -> R st errs (add_trace evs st).
Hypothesis R_fetch : forall st ip, ip ∉ resolved st ->
  R st (match fst (getPackage w ip (gopath st)) with Some e => [e] | None => [] end)
       (set_resolved (union {[ip]}) (add_trace [snd (getPackage w ip (gopath st))] st)).

Lemma copyDeps_effects call deps errs st e st' :
  (forall p n st e st', call p n st = Ret (e, st') -> R st e st') ->
  copyDeps call deps errs st = Ret (e, st') ->
  exists e', e = errs ++ e' /\ R st e' st'.
Proof.
  intros Hcall. revert errs st.
  induction deps as [|d deps IH]; intros errs st H; simpl in H.
  - inversion H; subst. exists []. by rewrite app_nil_r.
  - run_inv H. destruct a as [e1 st1].
    destruct (IH _ _ H) as (e2 & -> & HR).
    exists (e1 ++ e2). split; [by rewrite <- List.app_assoc|].
    eapply R_trans; [by eapply Hcall|exact HR].
Qed.

Lemma copySubs_effects call ip subs errs st e st' :
  (forall p n st e st', call p n st = Ret (e, st') -> R st e st') ->
  copySubs call ip subs errs st = Ret (e, st') ->
  exists e', e = errs ++ e' /\ R st e' st'.
Proof.
  intros Hcall. revert errs st.
  induction subs as [|s subs IH]; intros errs st H; simpl in H.
  - inversion H; subst. exists []. by rewrite app_nil_r.
  - run_inv H. destruct a as [e1 st1].
    destruct (IH _ _ H) as (e2 & -> & HR).
    exists (e1 ++ e2). split; [by rewrite <- List.app_assoc|].
    change (e1 ++ e2) with ([] ++ (e1 ++ e2)).
    eapply R_trans; [apply R_print|].
    eapply R_trans; [by eapply Hcall|exact HR].
Qed.

Lemma copyPkg_effects fuel : forall path newImportPath st errs st',
  copyPkg fuel w path newImportPath st = Ret (errs, st') -> R st errs st'.
Proof.
  induction fuel as [|fuel IH]; intros p n st errs st' H; [discriminate|].
  rewrite copyPkg_unfold in H. run_inv H. destruct a as [[pkg|] err]; [|discriminate].
  case_bool_decide as Hres.
  { inversion H; subst. destruct (negb _); [apply R_print|apply R_refl]. }
  destruct (_ || _).
  { cbv zeta in H.
    assert (ImportPath pkg ∉ resolved (verbosely ("Getting " +:+ ImportPath pkg +:+ ".") st))
      as Hres' by (unfold verbosely; by destruct (verbose st)).
    pose proof (R_fetch (verbosely ("Getting " +:+ ImportPath pkg +:+ ".") st)
                  (ImportPath pkg) Hres') as Hf.
    destruct (getPackage _ _ _) as [oe ev]. simpl in Hf.
    assert (R st (match oe with Some e => [e] | None => [] end)
              (set_resolved (union {[ImportPath pkg]})
                 (add_trace [ev] (verbosely ("Getting " +:+ ImportPath pkg +:+ ".") st))))
      as HR.
    { change (match oe with Some e => [e] | None => [] end)
        with ([] ++ (match oe with Some e => [e] | None => [] end)).
      eapply R_trans; [apply R_print|exact Hf]. }
    destruct oe; inversion H; subst; exact HR. }
  destruct (negb _); [|inversion H; subst; apply R_refl].
  cbv zeta in H. run_inv H. destruct a as [e0 evs].
  apply R_copy in Hm0.
  assert (R st e0 (add_trace evs (verbosely ("Copying " +:+ ImportPath pkg +:+ " from "
            +:+ quoted (render (Dir pkg)) +:+ ".") st))) as HR0.
  { change e0 with ([] ++ e0). eapply R_trans; [apply R_print|exact Hm0]. }
  destruct err; [by inversion H; subst|].
  run_inv H. destruct a as [e1 st3].
  apply copyDeps_effects in Hm1 as (e1' & -> & HR1); [|exact IH].
  assert (R st (e0 ++ e1') (set_resolved (union {[ImportPath pkg]}) st3)) as HR3.
  { rewrite <- (app_nil_r (e0 ++ e1')).
    eapply R_trans; [eapply R_trans; [exact HR0|exact HR1]|apply R_mark]. }
  destruct (recursive _); [|by inversion H; subst].
  run_inv H. apply copySubs_effects in H as (e2 & -> & HR2); [|exact IH].
  eapply R_trans; [exact HR3|exact HR2].
Qed.
End Effects.

(** ** The errors of copyDir *)

Lemma failures_app evs1 evs2 : failures (evs1 ++ evs2) = (failures evs1 + failures evs2)%nat.
Proof. unfold failures. by rewrite filter_app, length_app. Qed.

Lemma accounted_more errs evs errs' evs' :
  accounted errs evs -> accounted errs' evs' -> accounted (errs ++ errs') (evs ++ evs').
Proof.
  intros (Hf & Hn & Hg) (Hf' & Hn' & Hg'). repeat split.
  - by apply Forall_app.
  - rewrite failures_app, length_app. lia.
  - by apply Forall_app.
Qed.

Lemma accounted_copyFile w src dst :
  accounted (match fst (copyFile w src dst) with Some e => [e] | None => [] end)
            (snd (copyFile w src dst)).
Proof.
  unfold copyFile.
  destruct (osOpen w src); [|destruct (osCreate w dst); [|destruct (ioCopy w dst src)]];
    simpl; repeat split; repeat constructor.
Qed.

Lemma accounted_copyFunc w st src dst p i e c r c' :
  copyFunc w st src dst p i e c = Ret (r, c') ->
  accounted (c_errs c) (c_trace c) -> accounted (c_errs c') (c_trace c').
Proof.
  intros H Hc. unfold copyFunc in H. destruct e as [msg|].
  { inversion H; subst. simpl. rewrite <- (app_nil_r (c_trace c)).
    apply accounted_more; [done|]. repeat split; repeat constructor. }
  destruct i as [info|]; [|discriminate]. run_inv H. destruct a.
  { destruct (fi_isdir info); inversion H; by subst. }
  destruct (path_eqb p (workspace st)); [by inversion H; subst|].
  destruct (Rel src p) as [rel|]; [|discriminate].
  destruct (fi_isdir info).
  - destruct (osMkdirAll w (dst ++ rel) dirPerm); inversion H; subst; simpl.
    + apply accounted_more; [done|]. repeat split; repeat constructor.
    + rewrite <- (app_nil_r (c_errs c)).
      apply accounted_more; [done|]. repeat split; repeat constructor.
  - pose proof (accounted_copyFile w p (dst ++ rel)) as Hf.
    destruct (copyFile w p (dst ++ rel)) as [[e|] evs]; inversion H; subst; simpl in *.
    + by apply accounted_more.
    + rewrite <- (app_nil_r (c_errs c)). by apply accounted_more.
Qed.

Lemma accounted_chmodAll w todo errs tr :
  accounted errs tr ->
  accounted (fst (chmodAll w todo errs tr)) (snd (chmodAll w todo errs tr)).
Proof.
  revert errs tr. induction todo as [|x todo IH]; intros errs tr Hc; simpl; [done|].
  destruct (osChmod w (chmod_path x) (chmod_mode x)); apply IH.
  - apply accounted_more; [done|]. repeat split; repeat constructor.
  - rewrite <- (app_nil_r errs).
    apply accounted_more; [done|]. repeat split; repeat constructor.
Qed.

Lemma accounted_copyDir w st src dst errs evs :
  copyDir w st src dst = Ret (errs, evs) -> accounted errs evs.
Proof.
  unfold copyDir. intros H. run_inv H. injection H as H.
  pose proof (accounted_chmodAll w (rev (c_stack a)) (c_errs a) (c_trace a)) as Hc.
  rewrite H in Hc. apply Hc.
  apply (Walk_keeps (copyFunc w st src dst) (fun _ => True)
           (fun c => accounted (c_errs c) (c_trace c)))
    with (fs := fs w) (root := src) (s := {| c_errs := []; c_stack := []; c_trace := [] |});
    auto.
  - intros p i e c r c' _ Hc' Hstep. by eapply accounted_copyFunc.
  - repeat split; constructor.
Qed.

(** X10. copyDir returns at least one error for every operation that
    failed, so that an empty list of errors means that every directory was
    created, every file created and copied, and every chmod done. *)
Theorem copyDir_reports_failures w st src dst errs evs :
  copyDir w st src dst = Ret (errs, evs) ->
  (failures evs <= List.length errs)%nat /\
  (errs = [] -> forall ev, ev ∈ evs -> event_ok ev = true).
Proof.
  intros H. destruct (accounted_copyDir _ _ _ _ _ _ H) as (_ & Hn & _).
  split; [exact Hn|]. intros -> ev Hev. simpl in Hn.
  destruct (event_ok ev) eqn:Hok; [done|].
  assert (ev ∈ filter (fun ev => event_ok ev = false) evs) as Hin
    by (by apply list_elem_of_filter).
  unfold failures in Hn. destruct (filter _ evs); [by apply elem_of_nil in Hin|].
  simpl in Hn. lia.
Qed.

Lemma copyDir_reports_failures_witness :
  (failures Examples.copyOfA <= List.length (@nil error))%nat /\
  (@nil error = [] -> forall ev, ev ∈ Examples.copyOfA -> event_ok ev = true).
Proof.
  apply (copyDir_reports_failures Examples.acyclic Examples.started Examples.dirA
           Examples.dstA [] Examples.copyOfA).
  vm_compute. reflexivity.
Defined.

(** ** What copyPkg reports, prints and fetches *)

Lemma verbosely_fields line st :
  trace (verbosely line st) = trace st /\ resolved (verbosely line st) = resolved st /\
  gopath (verbosely line st) = gopath st /\ verbose (verbosely line st) = verbose st /\
  stderr (verbosely line st) = stderr st.
Proof. unfold verbosely. destruct (verbose st) eqn:Hv; repeat split; exact Hv. Qed.

Lemma copyPkg_reports fuel w path newImportPath st errs st' :
  copyPkg fuel w path newImportPath st = Ret (errs, st') -> reports st errs st'.
Proof.
  apply (copyPkg_effects w reports).
  - intros s. split; [constructor|]. exists []. by rewrite app_nil_r.
  - intros s1 e1 s2 e2 s3 (Hf1 & evs1 & Ht1 & Hn1) (Hf2 & evs2 & Ht2 & Hn2).
    split; [by apply Forall_app|]. exists (evs1 ++ evs2).
    rewrite Ht2, Ht1, failures_app, length_app, List.app_assoc. split; [done|lia].
  - intros line s. split; [constructor|]. exists [].
    destruct (verbosely_fields line s) as (-> & _). by rewrite app_nil_r.
  - intros ip s. split; [constructor|]. exists []. simpl. by rewrite app_nil_r.
  - intros s src dst e evs H. apply accounted_copyDir in H as (Hf & Hn & _).
    split; [done|]. by exists evs.
  - intros s ip _. unfold getPackage. destruct (goGet w ip (gopath s)); simpl.
    + split; [by repeat constructor|]. eexists. split; [reflexivity|]. by cbn.
    + split; [constructor|]. eexists. split; [reflexivity|]. by cbn.
Qed.

(** X11. The errors that copyPkg returns are all fmtErr values (checkError
    reports them with exit code 3, never with the usage), and there is at
    least one of them for every operation of the call that failed: a call
    without error has done every mkdir, create, copy, chmod and go get that
    it tried. *)
Theorem copyPkg_reports_failures fuel w path newImportPath st errs st' :
  copyPkg fuel w path newImportPath st = Ret (errs, st') ->
  Forall (fun e => is_fmtErr e = true) errs /\
  exists evs, trace st' = trace st ++ evs /\
    (failures evs <= List.length errs)%nat /\
    (errs = [] -> Forall (fun ev => event_ok ev = true) evs).
Proof.
  intros H. destruct (copyPkg_reports _ _ _ _ _ _ _ H) as (Hf & evs & Ht & Hn).
  split; [exact Hf|]. exists evs. split; [exact Ht|]. split; [exact Hn|].
  intros ->. simpl in Hn. unfold failures in Hn. clear Ht.
  induction evs as [|ev evs IH]; [constructor|].
  rewrite filter_cons in Hn. destruct (decide (event_ok ev = false)) as [Hev|Hev].
  - simpl in Hn. lia.
  - constructor; [by destruct (event_ok ev)|by apply IH].
Qed.

Lemma copyPkg_reports_failures_witness :
  Forall (fun e => is_fmtErr e = true) (@nil error) /\
  exists evs, trace Examples.afterB = trace Examples.started ++ evs /\
    (failures evs <= List.length (@nil error))%nat /\
    (@nil error = [] -> Forall (fun ev => event_ok ev = true) evs).
Proof.
  apply (copyPkg_reports_failures 3 Examples.acyclic "B" "" Examples.started []
           Examples.afterB).
  vm_compute. reflexivity.
Defined.




Lemma copyPkg_fetches fuel w path newImportPath st errs st' :
  copyPkg fuel w path newImportPath st = Ret (errs, st') -> fetches st errs st'.
Proof.
  apply (copyPkg_effects w fetches).
  - intros s. repeat split; [done|]. exists []. rewrite app_nil_r. split; [done|].
    intros pkg env ok Hin. by apply elem_of_nil in Hin.
  - intros s1 e1 s2 e2 s3 (Hr1 & Hg1 & evs1 & Ht1 & Hin1) (Hr2 & Hg2 & evs2 & Ht2 & Hin2).
    split; [by etrans|]. split; [congruence|].
    exists (evs1 ++ evs2). rewrite Ht2, Ht1, List.app_assoc. split; [done|].
    intros pkg env ok Hin. apply elem_of_app in Hin as [Hin|Hin].
    + destruct (Hin1 _ _ _ Hin) as (-> & Hres & Hnot). repeat split; [|done]. by apply Hr2.
    + destruct (Hin2 _ _ _ Hin) as (-> & Hres & Hnot). repeat split; [done..|].
      intros Hold. apply Hnot. by apply Hr1.
  - intros line s. destruct (verbosely_fields line s) as (Ht & Hr & Hg & _).
    split; [by rewrite Hr|]. split; [done|]. exists []. rewrite app_nil_r. split; [done|].
    intros pkg env ok Hin. by apply elem_of_nil in Hin.
  - intros ip s. split; [simpl; set_solver|]. split; [done|]. exists [].
    simpl. rewrite app_nil_r. split; [done|].
    intros pkg env ok Hin. by apply elem_of_nil in Hin.
  - intros s src dst e evs H. apply accounted_copyDir in H as (_ & _ & Hg).
    split; [done|]. split; [done|]. exists evs. split; [done|].
    intros pkg env ok Hin. rewrite Forall_forall in Hg. by apply Hg in Hin.
  - intros s ip Hnot. split; [simpl; set_solver|]. split; [done|].
    eexists. split; [reflexivity|]. intros pkg env ok Hin.
    apply list_elem_of_singleton in Hin. unfold getPackage in Hin.
    destruct (goGet w ip (gopath s)); simpl in Hin; injection Hin as -> -> _;
      (repeat split; [simpl; set_solver|done]).
Qed.



(** ** main *)

Lemma checkError_false_inv errs st failed st1 :
  checkError false errs st = Ret (failed, st1) ->
  (first_error errs = None /\ failed = false /\ st1 = st) \/
  (exists e, first_error errs = Some e /\ failed = true /\
     st1 = if is_syntaxErr e then eprint usage (eprint (reported e) st)
           else set_exitCode 3 (eprint (reported e) st)).
Proof.
  induction errs as [|[e|] errs IH]; simpl; intros H.
  - left. by inversion H.
  - right. exists e. destruct e; inversion H; by subst.
  - by apply IH.
Qed.

Lemma checkError_true_inv errs st r :
  checkError true errs st = Ret r -> first_error errs = None /\ r = (false, st).
Proof.
  induction errs as [|[e|] errs IH]; simpl; intros H.
  - by inversion H.
  - by destruct e.
  - by apply IH.
Qed.

Lemma looped_refl st : looped st st.
Proof.
  repeat split. exists []. rewrite app_nil_r. repeat split; [by right|].
  intros pkg env ok Hin. by apply elem_of_nil in Hin.
Qed.

Lemma looped_trans st1 st2 st3 : looped st1 st2 -> looped st2 st3 -> looped st1 st3.
Proof.
  intros (Hg1 & Hw1 & evs1 & Ht1 & Hx1 & He1) (Hg2 & Hw2 & evs2 & Ht2 & Hx2 & He2).
  split; [congruence|]. split; [congruence|]. exists (evs1 ++ evs2).
  rewrite Ht2, Ht1, List.app_assoc, failures_app. repeat split.
  - destruct Hx2 as [?|[Hx2 Hf2]]; [by left|].
    destruct Hx1 as [?|[Hx1 Hf1]]; [left; congruence|]. right. split; [congruence|lia].
  - intros pkg env ok Hin. apply elem_of_app in Hin as [Hin|Hin].
    + by eapply He1.
    + rewrite <- Hg1. by eapply He2.
Qed.

Lemma looped_checkError errs st failed st1 :
  checkError false errs st = Ret (failed, st1) -> looped st st1.
Proof.
  intros H. apply checkError_false_inv in H as [(_ & _ & ->)|(e & _ & _ & ->)];
    [apply looped_refl|].
  destruct (is_syntaxErr e); (repeat split; exists []; simpl; rewrite app_nil_r;
    repeat split; [by (left + right)|intros pkg env ok Hin; by apply elem_of_nil in Hin]).
Qed.

Lemma looped_copyPkg fuel w path newImportPath st errs st1 failed st2 :
  copyPkg fuel w path newImportPath st = Ret (errs, st1) ->
  checkError false (map Some errs) st1 = Ret (failed, st2) ->
  looped st st2.
Proof.
  intros Hc Hk.
  destruct (copyPkg_reports _ _ _ _ _ _ _ Hc) as (Hfmt & evs & Ht & Hn).
  destruct (copyPkg_fetches _ _ _ _ _ _ _ Hc) as (_ & Hg & evs' & Ht' & Hev).
  rewrite Ht in Ht'. apply app_inv_head in Ht' as <-.
  pose proof (copyPkg_extends _ _ _ _ _ _ _ Hc) as Hx.
  apply checkError_false_inv in Hk as [(He & _ & ->)|(e & He & _ & ->)].
  - destruct errs as [|e errs]; [clear He|discriminate He].
    split; [done|]. split; [apply Hx|]. exists evs. repeat split; [done| |].
    + right. split; [apply Hx|]. simpl in Hn. lia.
    + intros pkg env ok Hin. by destruct (Hev _ _ _ Hin).
  - destruct errs as [|e' errs]; [discriminate He|]. injection He as <-.
    apply Forall_cons in Hfmt as [Hfmt _]. destruct e'; try discriminate. simpl.
    split; [done|]. split; [apply Hx|]. exists evs. repeat split; [done|by left|].
    intros pkg env ok Hin. by destruct (Hev _ _ _ Hin).
Qed.

Lemma mainLoop_looped fuel w args : forall st st',
  mainLoop fuel w args st = Ret st' -> looped st st'.
Proof.
  induction args as [|arg args IH]; intros st st' H; simpl in H.
  - inversion H. apply looped_refl.
  - destruct (parseImport w arg) as [[importPath dir] err].
    apply bind_Ret_inv in H as ([failed st1] & Hk1 & H).
    apply (looped_checkError [err]) in Hk1.
    destruct failed; [eapply looped_trans; [exact Hk1|by apply IH]|].
    apply bind_Ret_inv in H as ([errs st2] & Hc & H).
    apply bind_Ret_inv in H as ([failed st3] & Hk2 & H).
    eapply looped_trans; [exact Hk1|]. eapply looped_trans; [|by apply IH].
    destruct (nonempty dir); by eapply looped_copyPkg.
Qed.



(** ** The exit codes *)

Lemma bind_Exit_inv {A B} (m : run A) (k : A -> run B) c :
  m ≫= k = Exit c -> m = Exit c \/ exists a, m = Ret a /\ k a = Exit c.
Proof.
  unfold mbind, run_bind, bind. destruct m; intros H; try discriminate; eauto.
  injection H as ->. by left.
Qed.

Lemma walk_not_Exit {S} (fn : WalkFunc S) n c :
  (forall p i e s, fn p i e s <> Exit c) ->
  forall p s, walk fn n p s <> Exit c.
Proof.
  intros Hfn.
  induction n as [nm m|nm m e ents IH] using node_nested_ind; intros p s H;
    rewrite walk_unfold in H;
    apply bind_Exit_inv in H as [H|([r s1] & _ & H)]; try by eapply Hfn.
  - by destruct r.
  - destruct r; [|discriminate]. destruct e as [msg|]; [by eapply Hfn|].
    revert s1 H. induction IH as [|x ents Hx _ IHents]; intros s1 H; simpl in H;
      [discriminate|].
    apply bind_Exit_inv in H as [H|([r2 s2] & _ & H)]; [by eapply Hx|].
    destruct r2; [by eapply IHents|].
    destruct (node_isdir x); [by eapply IHents|discriminate].
Qed.

Lemma Walk_not_Exit {S} (fn : WalkFunc S) fs root s c :
  (forall p i e s, fn p i e s <> Exit c) -> Walk fs fn root s <> Exit c.
Proof.
  intros Hfn H. unfold Walk in H. destruct (lookup_node fs root) as [n|];
    apply bind_Exit_inv in H as [H|([r s1] & _ & H)]; try discriminate.
  - by eapply walk_not_Exit.
  - by eapply Hfn.
Qed.

Lemma findPkg_not_Exit w path newImportPath c : findPkg w path newImportPath <> Exit c.
Proof.
  unfold findPkg, import_found. intros H.
  apply bind_Exit_inv in H as [H|(isdir & _ & H)].
  - destruct (IsLocalImport path); [discriminate|]. by destruct path.
  - repeat (case_match; try discriminate).
Qed.

Lemma copyDir_not_Exit w st src dst c : copyDir w st src dst <> Exit c.
Proof.
  unfold copyDir. intros H. apply bind_Exit_inv in H as [H|(a & _ & H)]; [|discriminate].
  eapply Walk_not_Exit; [|exact H]. intros p i e s. unfold copyFunc. intros H'.
  destruct e; [discriminate|]. destruct i as [info|]; [|discriminate].
  apply bind_Exit_inv in H' as [H'|(dot & _ & H')].
  - destruct (hidden st); [discriminate|]. by destruct (fi_name info).
  - repeat (case_match; try discriminate).
Qed.

Lemma findSubPkgs_not_Exit w st base ip c : findSubPkgs w st base ip <> Exit c.
Proof.
  unfold findSubPkgs. apply Walk_not_Exit. intros p i e s. unfold subPkgFunc. intros H.
  repeat (case_match; try discriminate).
  apply bind_Exit_inv in H as [H|([opkg e'] & _ & H)].
  - by eapply findPkg_not_Exit.
  - repeat (case_match; try discriminate).
Qed.

Lemma copyDeps_not_Exit call c deps : forall errs st,
  (forall p n st, call p n st <> Exit c) -> copyDeps call deps errs st <> Exit c.
Proof.
  induction deps as [|d deps IH]; intros errs st Hcall H; simpl in H; [discriminate|].
  apply bind_Exit_inv in H as [H|([e st1] & _ & H)]; [by eapply Hcall|by eapply IH].
Qed.

Lemma copySubs_not_Exit call c ip subs : forall errs st,
  (forall p n st, call p n st <> Exit c) -> copySubs call ip subs errs st <> Exit c.
Proof.
  induction subs as [|d subs IH]; intros errs st Hcall H; simpl in H; [discriminate|].
  apply bind_Exit_inv in H as [H|([e st1] & _ & H)]; [by eapply Hcall|by eapply IH].
Qed.

Lemma copyPkg_not_Exit fuel w c : forall path newImportPath st,
  copyPkg fuel w path newImportPath st <> Exit c.
Proof.
  induction fuel as [|fuel IH]; intros p n st H; [discriminate|].
  rewrite copyPkg_unfold in H.
  apply bind_Exit_inv in H as [H|([[pkg|] err] & _ & H)];
    [by eapply findPkg_not_Exit| |discriminate].
  destruct (bool_decide _); [discriminate|].
  destruct (_ || _).
  { cbv zeta in H. destruct (getPackage _ _ _) as [[e|] ev]; discriminate. }
  destruct (negb _); [|discriminate]. cbv zeta in H.
  apply bind_Exit_inv in H as [H|([e0 evs] & _ & H)]; [by eapply copyDir_not_Exit|].
  destruct err; [discriminate|].
  apply bind_Exit_inv in H as [H|([e1 st3] & _ & H)]; [by eapply copyDeps_not_Exit|].
  destruct (recursive _); [|discriminate].
  apply bind_Exit_inv in H as [H|(subs & _ & H)]; [by eapply findSubPkgs_not_Exit|].
  by eapply copySubs_not_Exit.
Qed.

Lemma checkError_false_not_Exit errs st c : checkError false errs st <> Exit c.
Proof. induction errs as [|[[]|] errs IH]; simpl; try discriminate. exact IH. Qed.

Lemma checkError_true_Exit errs st c :
  checkError true errs st = Exit c ->
  exists e, first_error errs = Some e /\ c = (if is_syntaxErr e then 2 else 1)%Z.
Proof.
  induction errs as [|[e|] errs IH]; simpl; intros H; [discriminate| |by apply IH].
  exists e. destruct e; inversion H; by subst.
Qed.

Lemma mainLoop_not_Exit fuel w c args : forall st, mainLoop fuel w args st <> Exit c.
Proof.
  induction args as [|arg args IH]; intros st H; simpl in H; [discriminate|].
  destruct (parseImport w arg) as [[importPath dir] err].
  apply bind_Exit_inv in H as [H|([failed st1] & _ & H)];
    [by apply (checkError_false_not_Exit [err]) in H|].
  destruct failed; [by eapply IH|].
  apply bind_Exit_inv in H as [H|([errs st2] & _ & H)].
  { destruct (nonempty dir); by eapply copyPkg_not_Exit. }
  apply bind_Exit_inv in H as [H|([failed st3] & _ & H)];
    [by eapply checkError_false_not_Exit|by eapply IH].
Qed.

(** X15. The exit codes of main. The process exits with 2 only when the
    command line has fewer than two arguments or an empty workspace path,
    with 1 only when the workspace could not be created (no absolute path,
    or MkdirAll failed), and with 3 only after the workspace was created;
    os.Exit is called with no other code, and nothing below main calls
    it. *)
Theorem main_exit_codes fuel w fl args c :
  main fuel w fl args = Exit c ->
  (c = 2%Z /\ ((List.length args < 2)%nat \/ hd "" args = "")) \/
  (c = 1%Z /\ (2 <= List.length args)%nat /\ hd "" args <> "" /\
     forall p, filepathAbs w (hd "" args) = inl p -> osMkdirAll w p dirPerm <> None) \/
  (c = 3%Z /\ (2 <= List.length args)%nat /\ hd "" args <> "" /\
     exists p, filepathAbs w (hd "" args) = inl p /\ osMkdirAll w p dirPerm = None).
Proof.
  unfold main. intros H.
  destruct args as [|wsArg [|arg rest]]; [left; split; [by inversion H|left; simpl; lia]..|].
  cbn [hd List.length].
  destruct (createWorkspace w wsArg (initial fl)) as [[absPath err] st1] eqn:Hcw.
  unfold createWorkspace in Hcw.
  apply bind_Exit_inv in H as [H|([b st2] & Hk & H)].
  - apply checkError_true_Exit in H as (e & He & ->). simpl in He.
    destruct (String.eqb wsArg "") eqn:Hempty.
    { apply String.eqb_eq in Hempty. injection Hcw as _ <- _. injection He as <-.
      left. split; [done|by right]. }
    apply String.eqb_neq in Hempty. right. left.
    destruct (filepathAbs w wsArg) as [p|msg].
    + destruct (osMkdirAll w p dirPerm) as [msg|] eqn:Hmk; injection Hcw as _ <- _;
        [|discriminate He].
      injection He as <-. repeat split; [lia|done|]. intros p' [= <-]. by rewrite Hmk.
    + injection Hcw as _ <- _. injection He as <-. repeat split; [lia|done|].
      intros p' Hp. discriminate Hp.
  - apply checkError_true_inv in Hk as [Herr [= -> ->]]. simpl in Herr.
    destruct err as [e|]; [discriminate Herr|].
    destruct (String.eqb wsArg "") eqn:Hempty; [discriminate Hcw|].
    apply String.eqb_neq in Hempty.
    destruct (filepathAbs w wsArg) as [p|msg]; [|discriminate Hcw].
    destruct (osMkdirAll w p dirPerm) as [msg|] eqn:Hmk; [discriminate Hcw|].
    injection Hcw as <- <-.
    apply bind_Exit_inv in H as [H|(st5 & Hl & H)]; [by apply mainLoop_not_Exit in H|].
    case_bool_decide as Hx; [|discriminate H]. injection H as <-.
    apply mainLoop_looped in Hl as (_ & _ & evs & _ & Hc & _).
    right. right. split.
    + destruct Hc as [Hc|[Hc _]]; [done|]. exfalso. apply Hx. rewrite Hc.
      by destruct (abs _).
    + split; [simpl; lia|]. split; [done|]. by exists p.
Qed.

Lemma main_exit_codes_witness :
  (3 = 2 /\ ((List.length ["/go/src/A/ws"; "E"; "B"] < 2)%nat \/
              hd "" ["/go/src/A/ws"; "E"; "B"] = ""))%Z \/
  (3 = 1 /\ (2 <= List.length ["/go/src/A/ws"; "E"; "B"])%nat /\
     hd "" ["/go/src/A/ws"; "E"; "B"] <> "" /\
     forall p, filepathAbs Examples.acyclic (hd "" ["/go/src/A/ws"; "E"; "B"]) = inl p ->
               osMkdirAll Examples.acyclic p dirPerm <> None)%Z \/
  (3 = 3 /\ (2 <= List.length ["/go/src/A/ws"; "E"; "B"])%nat /\
     hd "" ["/go/src/A/ws"; "E"; "B"] <> "" /\
     exists p, filepathAbs Examples.acyclic (hd "" ["/go/src/A/ws"; "E"; "B"]) = inl p /\
               osMkdirAll Examples.acyclic p dirPerm = None)%Z.
Proof.
  apply (main_exit_codes 3 Examples.acyclic defaultFlags ["/go/src/A/ws"; "E"; "B"] 3).
  vm_compute. reflexivity.
Defined.

(** ** The source of copyDir *)



(** X16. When the source does not exist, copyDir creates nothing and
    returns one error, the lstat error of the walk wrapped in a fmtErr. *)
Theorem copyDir_missing_source w st src dst :
  lookup_node (fs w) src = None ->
  copyDir w st src dst
  = Ret ([fmtErr ("Couldn't traverse " +:+ quoted (render src) +:+ ": "
                  +:+ lstat_error src +:+ ".")
                 ("error copying file:" +:+ lstat_error src)], []).
Proof. intros H. unfold copyDir, Walk. by rewrite H. Qed.

Lemma copyDir_missing_source_witness :
  copyDir Examples.acyclic Examples.started ["go"; "src"; "C"] Examples.dstA
  = Ret ([fmtErr ("Couldn't traverse " +:+ quoted (render ["go"; "src"; "C"]) +:+ ": "
                  +:+ lstat_error ["go"; "src"; "C"] +:+ ".")
                 ("error copying file:" +:+ lstat_error ["go"; "src"; "C"])], []).
Proof.
  apply (copyDir_missing_source Examples.acyclic Examples.started ["go"; "src"; "C"]
           Examples.dstA).
  reflexivity.
Defined.


